(** * DistributedPairing/animate.py: event batching and frame application

    A shallow embedding of [ConcurrentSimulationVisualizer]: the constructor
    ([__init__]), the temporal batcher ([group_events_by_time]) and the
    per-frame state accumulation and lookups of [update_frame].

    Input typing.  The event log is a JSON array of objects.  An event is
    decoded into the record [event]: a field read with [e.get(k)] is an
    [option] ([None] for an absent key and for a JSON null, which Python's
    [dict.get] does not tell apart).  Two fields are read with a default,
    [e.get("timestamp", 0)] and [e.get("msg", {})]; for those [None] stands
    for an absent key only, and a present value is an integer, respectively
    an object.  Node identifiers and timestamps are Python integers
    (unbounded, [Z]); state and type tags are strings.

    A ["msg"] key that holds null is outside this typing, and the loop body
    has a behaviour of its own for it: [json_event] and [apply_json_event]
    are the loop body with the key as the JSON has it, and
    [apply_json_event_typed] relates the two.

    What is not modelled: the matplotlib drawing calls and the coordinates
    computed by [spring_layout].  Of the drawing part the model keeps the
    dictionary lookups that can raise: [self.pos] for the end points of the
    matched edges (line 126) and of the messages (lines 134-135), whose key
    set is the node set of the graph, and the colour table (line 128). *)

From stdpp Require Import gmap strings list sorting.
From Stdlib Require Import ZArith Lia.

#[local] Set Warnings "-clear-no-such-hyp".

Open Scope Z_scope.

(** ** Events *)

(** The object under the ["msg"] key of a MSG_SENT event. *)
Record message := {
  msg_sender : option Z;      (* msg.get("sender") *)
  msg_target : option Z;      (* msg.get("target") *)
  msg_type   : option string  (* msg.get("type")   *)
}.

(** [{}], the default of [event.get("msg", {})]. *)
Definition empty_message : message :=
  {| msg_sender := None; msg_target := None; msg_type := None |}.

Record event := {
  ev_type      : option string;           (* event.get("type")         *)
  ev_timestamp : option Z;                (* key "timestamp", if any   *)
  ev_node      : option Z;                (* event.get("node")         *)
  ev_state     : option string;           (* event.get("state")        *)
  ev_partner   : option Z;                (* event.get("partner")      *)
  ev_msg       : option message;          (* key "msg", if any         *)
  ev_nodes     : option (list Z);         (* key "nodes", if any       *)
  ev_edges     : option (list (Z * Z))    (* key "edges", if any       *)
}.

(** Line 16. *)
Definition TIME_WINDOW_NS : Z := 100000000.

(** [e.get("timestamp", 0)], the sort key and the value compared with the
    window anchor. *)
Definition timestamp (e : event) : Z := default 0 (ev_timestamp e).

(** ** [list.sort(key=...)]

    Python's sort is stable.  A stable sort is determined by its key, so it
    is modelled by the insertion sort that puts an element in front of the
    first later element whose key is not smaller. *)

Fixpoint insert_by_timestamp (e : event) (l : list event) : list event :=
  match l with
  | [] => [e]
  | x :: r =>
      if timestamp e <=? timestamp x then e :: x :: r
      else x :: insert_by_timestamp e r
  end.

Definition sort_by_timestamp (l : list event) : list event :=
  foldr insert_by_timestamp [] l.

(** ** [group_events_by_time] (lines 47-74) *)

(** The three loop variables. *)
Record batcher := {
  batched_frames : list (list event);
  current_batch  : list event;
  window_start   : Z
}.

(** One iteration of the [for event in events] loop, lines 62-69, with the
    window length as a parameter. *)
Definition batch_step (window : Z) (b : batcher) (e : event) : batcher :=
  let ts := timestamp e in
  if ts - window_start b <=? window then
    {| batched_frames := batched_frames b;
       current_batch  := current_batch b ++ [e];
       window_start   := window_start b |}
  else
    {| batched_frames := batched_frames b ++ [current_batch b];
       current_batch  := [e];
       window_start   := ts |}.

(** Lines 71-74. *)
Definition close_batch (b : batcher) : list (list event) :=
  match current_batch b with
  | [] => batched_frames b
  | _ :: _ => batched_frames b ++ [current_batch b]
  end.

Definition group_events_by_time_with (window : Z) (events : list event)
  : list (list event) :=
  match events with
  | [] => []
  | _ :: _ =>
      let events := sort_by_timestamp events in
      let b0 := {| batched_frames := [];
                   current_batch  := [];
                   window_start   := from_option timestamp 0 (head events) |} in
      close_batch (foldl (batch_step window) b0 events)
  end.

(** The method as written, with the module constant. *)
Definition group_events_by_time (events : list event) : list (list event) :=
  group_events_by_time_with TIME_WINDOW_NS events.

(** ** Exceptions *)

Inductive exception :=
  | IndexError (msg : string)
  | ValueError (msg : string)
  | KeyError
  | AttributeError (msg : string).

Inductive result (A : Type) :=
  | Ok (a : A)
  | Raise (e : exception).
Arguments Ok {A} a.
Arguments Raise {A} e.

(** ** The graph (the part of [nx.Graph] the class uses)

    [graph.nodes] iterates in insertion order and holds each node once;
    [add_edges_from] also adds the end points of an edge as nodes.  The
    graph is undirected and holds an edge once, whichever way round and
    however often it is added: its edges are a set of unordered pairs, a
    pair being written with the smaller node first. *)

Record graph := {
  nodes : list Z;
  edges : gset (Z * Z)
}.

Definition empty_graph : graph := {| nodes := []; edges := ∅ |}.

Definition unordered_pair (u v : Z) : Z * Z := (Z.min u v, Z.max u v).

Definition add_node (g : graph) (n : Z) : graph :=
  if bool_decide (n ∈ nodes g) then g
  else {| nodes := nodes g ++ [n]; edges := edges g |}.

Definition add_nodes_from (g : graph) (l : list Z) : graph :=
  foldl add_node g l.

Definition add_edge (g : graph) (uv : Z * Z) : graph :=
  let g := add_node (add_node g uv.1) uv.2 in
  {| nodes := nodes g; edges := {[ unordered_pair uv.1 uv.2 ]} ∪ edges g |}.

Definition add_edges_from (g : graph) (l : list (Z * Z)) : graph :=
  foldl add_edge g l.

(** ** The object state *)

Record visualizer := {
  self_graph         : graph;
  self_node_states   : gmap Z string;
  self_matched_edges : gset (Z * Z);
  self_frames        : list (list event)
}.

(** Lines 8-13. *)
Definition STATE_COLORS : gmap string string :=
  list_to_map [("SINGLE", "#B0BEC5"); ("PROPOSER", "#FFB300");
               ("LISTENER", "#42A5F5"); ("MATCHED", "#66BB6A")].

(** Lines 38-39. *)
Definition initial_node_states (ns : list Z) : gmap Z string :=
  foldl (λ m node, <[node := "SINGLE"]> m) ∅ ns.

(** [__init__] (lines 19-45), from the decoded JSON array on. *)
Definition __init__ (raw_events : list event) : result visualizer :=
  match raw_events with
  | [] => Raise (IndexError "pop from empty list")      (* raw_events.pop(0) *)
  | init_event :: raw_events =>
      if bool_decide (ev_type init_event = Some "INIT") then
        let g := add_nodes_from empty_graph (default [] (ev_nodes init_event)) in
        let g := add_edges_from g (default [] (ev_edges init_event)) in
        Ok {| self_graph         := g;
              self_node_states   := initial_node_states (nodes g);
              self_matched_edges := ∅;
              self_frames        := group_events_by_time raw_events |}
      else Raise (ValueError "First event must be INIT")
  end.

(** ** [update_frame] (lines 76-146) *)

(** What the event loop of lines 91-117 reads and writes: the two object
    fields and the four locals of lines 84-88. *)
Record loop_state := {
  node_states         : gmap Z string;
  matched_edges       : gset (Z * Z);
  active_messages     : list (Z * Z * option string);
  state_changes_count : nat;
  message_count       : nat;
  match_count         : nat
}.

(** [tuple(sorted((node, partner)))] *)
Definition sorted_pair (node partner : Z) : Z * Z :=
  (Z.min node partner, Z.max node partner).

(** The body of the loop, lines 92-117. *)
Definition apply_event (st : loop_state) (e : event) : loop_state :=
  let event_type := ev_type e in
  if bool_decide (event_type = Some "STATE_CHANGE") then
    match ev_node e, ev_state e with
    | Some node, Some state =>
        {| node_states         := <[node := state]> (node_states st);
           matched_edges       := matched_edges st;
           active_messages     := active_messages st;
           state_changes_count := S (state_changes_count st);
           message_count       := message_count st;
           match_count         := match_count st |}
    | _, _ => st
    end
  else if bool_decide (event_type = Some "MSG_SENT") then
    let msg := default empty_message (ev_msg e) in
    match msg_sender msg, msg_target msg with
    | Some sender, Some target =>
        {| node_states         := node_states st;
           matched_edges       := matched_edges st;
           active_messages     := active_messages st ++ [(sender, target, msg_type msg)];
           state_changes_count := state_changes_count st;
           message_count       := S (message_count st);
           match_count         := match_count st |}
    | _, _ => st
    end
  else if bool_decide (event_type = Some "MATCHED") then
    match ev_node e, ev_partner e with
    | Some node, Some partner =>
        {| node_states         := <[node := "MATCHED"]> (node_states st);
           matched_edges       :=
             if bool_decide (node ≠ partner)
             then {[ sorted_pair node partner ]} ∪ matched_edges st
             else matched_edges st;
           active_messages     := active_messages st;
           state_changes_count := state_changes_count st;
           message_count       := message_count st;
           match_count         := S (match_count st) |}
    | _, _ => st
    end
  else st.

(** ** The loop body on an event as the JSON has it

    [event.get("msg", {})] gives the default only for an absent key.  A
    ["msg"] key that is present holds what the JSON holds, an object or
    null, and line 103 calls [.get] on it. *)

Inductive msg_value :=
  | MsgAbsent                   (* no "msg" key     *)
  | MsgNull                     (* "msg": null      *)
  | MsgObject (m : message).    (* "msg": { ... }   *)

(** An event with the ["msg"] key as it is in the log; the other fields as
    in [event]. *)
Record json_event := {
  js_type      : option string;
  js_timestamp : option Z;
  js_node      : option Z;
  js_state     : option string;
  js_partner   : option Z;
  js_msg       : msg_value;
  js_nodes     : option (list Z);
  js_edges     : option (list (Z * Z))
}.

(** The typed event of a JSON event whose ["msg"] is absent or an object. *)
Definition typed (e : json_event) : event :=
  {| ev_type := js_type e; ev_timestamp := js_timestamp e;
     ev_node := js_node e; ev_state := js_state e;
     ev_partner := js_partner e;
     ev_msg := match js_msg e with MsgObject m => Some m | _ => None end;
     ev_nodes := js_nodes e; ev_edges := js_edges e |}.

(** Lines 103-108 for a ["msg"] that is an object. *)
Definition record_message (st : loop_state) (msg : message) : loop_state :=
  match msg_sender msg, msg_target msg with
  | Some sender, Some target =>
      {| node_states         := node_states st;
         matched_edges       := matched_edges st;
         active_messages     :=
           active_messages st ++ [(sender, target, msg_type msg)];
         state_changes_count := state_changes_count st;
         message_count       := S (message_count st);
         match_count         := match_count st |}
  | _, _ => st
  end.

(** Lines 92-117 once more, on a JSON event: [Raise] where Python raises. *)
Definition apply_json_event (st : loop_state) (e : json_event)
  : result loop_state :=
  let event_type := js_type e in
  if bool_decide (event_type = Some "STATE_CHANGE") then
    match js_node e, js_state e with
    | Some node, Some state =>
        Ok {| node_states         := <[node := state]> (node_states st);
              matched_edges       := matched_edges st;
              active_messages     := active_messages st;
              state_changes_count := S (state_changes_count st);
              message_count       := message_count st;
              match_count         := match_count st |}
    | _, _ => Ok st
    end
  else if bool_decide (event_type = Some "MSG_SENT") then
    match js_msg e with
    | MsgAbsent => Ok (record_message st empty_message)   (* msg = {} *)
    | MsgObject msg => Ok (record_message st msg)
    | MsgNull =>                          (* msg = None; line 103: msg.get *)
        Raise (AttributeError "'NoneType' object has no attribute 'get'")
    end
  else if bool_decide (event_type = Some "MATCHED") then
    match js_node e, js_partner e with
    | Some node, Some partner =>
        Ok {| node_states         := <[node := "MATCHED"]> (node_states st);
              matched_edges       :=
                if bool_decide (node ≠ partner)
                then {[ sorted_pair node partner ]} ∪ matched_edges st
                else matched_edges st;
              active_messages     := active_messages st;
              state_changes_count := state_changes_count st;
              message_count       := message_count st;
              match_count         := S (match_count st) |}
    | _, _ => Ok st
    end
  else Ok st.

(** The loop of lines 91-117 on JSON events: it stops at the first event
    that raises, with what the events before it wrote. *)
Fixpoint apply_json_events (st : loop_state) (frame : list json_event)
  : loop_state * option exception :=
  match frame with
  | [] => (st, None)
  | e :: rest =>
      match apply_json_event st e with
      | Ok st' => apply_json_events st' rest
      | Raise ex => (st, Some ex)
      end
  end.

(** The numbers formatted into the title, lines 120-122. *)
Record title := {
  title_window   : nat;    (* frame_idx + 1     *)
  title_windows  : nat;    (* len(self.frames)  *)
  title_msgs     : nat;
  title_updates  : nat;
  title_matches  : nat
}.

(** What lines 119-146 hand to matplotlib. *)
Record scene := {
  scene_title    : title;
  scene_edges    : gset (Z * Z);                  (* line 125 *)
  scene_matched  : list (Z * Z);                  (* line 126 *)
  scene_colors   : list string;                   (* line 128 *)
  scene_arrows   : list (Z * Z * option string)   (* lines 133-144 *)
}.

(** Line 128: [STATE_COLORS[self.node_states[n]]]; either subscript raises
    [KeyError] on a missing key. *)
Definition node_color (states : gmap Z string) (n : Z) : option string :=
  states !! n ≫= λ state, STATE_COLORS !! state.

(** Lines 134-135: [self.pos[sender]] and [self.pos[target]]; the keys of
    [self.pos] are the nodes of the graph. *)
Definition has_position (g : graph) (m : Z * Z * option string) : bool :=
  bool_decide (m.1.1 ∈ nodes g) && bool_decide (m.1.2 ∈ nodes g).

(** Line 126: drawing the matched edges looks up [self.pos] for the two
    end points of each of them. *)
Definition edge_has_position (g : graph) (uv : Z * Z) : bool :=
  bool_decide (uv.1 ∈ nodes g) && bool_decide (uv.2 ∈ nodes g).

Inductive outcome :=
  | Returned                  (* line 80: nothing applied, nothing drawn *)
  | Drawn (s : scene)         (* no lookup of lines 119-146 missed *)
  | Raised (e : exception).

(** Lines 119-146, after the event loop: the lookups of line 126 (matched
    edges), line 128 (colours) and lines 134-135 (messages), in this order;
    each raises [KeyError] on a missing key. *)
Definition draw (g : graph) (frame_idx total : nat) (st : loop_state) : outcome :=
  let t := {| title_window  := S frame_idx;
              title_windows := total;
              title_msgs    := message_count st;
              title_updates := state_changes_count st;
              title_matches := match_count st |} in
  if forallb (edge_has_position g) (elements (matched_edges st)) then
    match mapM (node_color (node_states st)) (nodes g) with
    | None => Raised KeyError
    | Some colors =>
        if forallb (has_position g) (active_messages st) then
          Drawn {| scene_title   := t;
                   scene_edges   := edges g;
                   scene_matched := elements (matched_edges st);
                   scene_colors  := colors;
                   scene_arrows  := active_messages st |}
        else Raised KeyError
    end
  else Raised KeyError.

(** Lines 84-88: the state the loop starts from. *)
Definition enter_frame (self : visualizer) : loop_state :=
  {| node_states         := self_node_states self;
     matched_edges       := self_matched_edges self;
     active_messages     := [];
     state_changes_count := 0;
     message_count       := 0;
     match_count         := 0 |}.

(** Lines 91-117. *)
Definition apply_events (self : visualizer) (current_events : list event)
  : loop_state :=
  foldl apply_event (enter_frame self) current_events.

(** The object after the loop: the writes to [self.node_states] and
    [self.matched_edges] stay, also when a later line raises. *)
Definition store (self : visualizer) (st : loop_state) : visualizer :=
  {| self_graph         := self_graph self;
     self_node_states   := node_states st;
     self_matched_edges := matched_edges st;
     self_frames        := self_frames self |}.

(** [update_frame]; [frame_idx] is the index FuncAnimation passes, a
    natural number. *)
Definition update_frame (self : visualizer) (frame_idx : nat)
  : visualizer * outcome :=
  match self_frames self !! frame_idx with
  | None => (self, Returned)          (* frame_idx >= len(self.frames) *)
  | Some current_events =>
      let st := apply_events self current_events in
      (store self st,
       draw (self_graph self) frame_idx (length (self_frames self)) st)
  end.

(** Calling [update_frame] for a list of indices, one after the other. *)
Definition replay (self : visualizer) (idxs : list nat) : visualizer :=
  foldl (λ s i, (update_frame s i).1) self idxs.

(** ** Vocabulary of the specification *)

(** An event that lacks a field its kind requires. *)
Definition incomplete (e : event) : bool :=
  (bool_decide (ev_type e = Some "STATE_CHANGE")
     && bool_decide (ev_node e = None ∨ ev_state e = None))
  || (bool_decide (ev_type e = Some "MSG_SENT")
     && bool_decide (msg_sender (default empty_message (ev_msg e)) = None
                     ∨ msg_target (default empty_message (ev_msg e)) = None))
  || (bool_decide (ev_type e = Some "MATCHED")
     && bool_decide (ev_node e = None ∨ ev_partner e = None)).

Definition is_state_change (e : event) : bool :=
  bool_decide (ev_type e = Some "STATE_CHANGE")
  && bool_decide (is_Some (ev_node e) ∧ is_Some (ev_state e)).

Definition is_message_sent (e : event) : bool :=
  bool_decide (ev_type e = Some "MSG_SENT")
  && bool_decide (is_Some (ev_msg e ≫= msg_sender)
                  ∧ is_Some (ev_msg e ≫= msg_target)).

Definition is_matched (e : event) : bool :=
  bool_decide (ev_type e = Some "MATCHED")
  && bool_decide (is_Some (ev_node e) ∧ is_Some (ev_partner e)).

(** The number of elements of [l] that satisfy [p]. *)
Definition count (p : event → bool) (l : list event) : nat :=
  length (List.filter p l).

(** The nodes a frame writes a state for. *)
Definition written_nodes (frame : list event) : gset Z :=
  list_to_set (omap (λ e,
    if is_state_change e || is_matched e then ev_node e else None) frame).

(** The four state names. *)
Definition known_state (s : string) : Prop :=
  s = "SINGLE" ∨ s = "PROPOSER" ∨ s = "LISTENER" ∨ s = "MATCHED".

(** A JSON event with nothing but a type, a timestamp and a ["msg"]. *)
Definition json_bare (ty : string) (ts : option Z) (msg : msg_value)
  : json_event :=
  {| js_type := Some ty; js_timestamp := ts; js_node := None;
     js_state := None; js_partner := None; js_msg := msg;
     js_nodes := None; js_edges := None |}.

(** A complete JSON state change. *)
Definition json_state_change (ts node : Z) (state : string) : json_event :=
  {| js_type := Some "STATE_CHANGE"; js_timestamp := Some ts;
     js_node := Some node; js_state := Some state; js_partner := None;
     js_msg := MsgAbsent; js_nodes := None; js_edges := None |}.

(** A bare event of a given kind. *)
Definition bare (ty : string) (ts : option Z) : event :=
  {| ev_type := Some ty; ev_timestamp := ts; ev_node := None;
     ev_state := None; ev_partner := None; ev_msg := None;
     ev_nodes := None; ev_edges := None |}.

Definition state_change_event (ts node : Z) (state : string) : event :=
  {| ev_type := Some "STATE_CHANGE"; ev_timestamp := Some ts;
     ev_node := Some node; ev_state := Some state; ev_partner := None;
     ev_msg := None; ev_nodes := None; ev_edges := None |}.

Definition matched_event (ts node partner : Z) : event :=
  {| ev_type := Some "MATCHED"; ev_timestamp := Some ts;
     ev_node := Some node; ev_state := None; ev_partner := Some partner;
     ev_msg := None; ev_nodes := None; ev_edges := None |}.

Definition init_event_of (ns : list Z) (es : list (Z * Z)) : event :=
  {| ev_type := Some "INIT"; ev_timestamp := None; ev_node := None;
     ev_state := None; ev_partner := None; ev_msg := None;
     ev_nodes := Some ns; ev_edges := Some es |}.

(** The pair a complete match of two different nodes stores, line 116. *)
Definition matched_pair (e : event) : option (Z * Z) :=
  if is_matched e then
    match ev_node e, ev_partner e with
    | Some node, Some partner =>
        if bool_decide (node ≠ partner)
        then Some (sorted_pair node partner) else None
    | _, _ => None
    end
  else None.

(** The pairs a frame adds to the matched edges. *)
Definition matched_pairs (frame : list event) : gset (Z * Z) :=
  list_to_set (omap matched_pair frame).

(** The triple a complete message appends to [active_messages], line 107. *)
Definition message_of (e : event) : option (Z * Z * option string) :=
  if is_message_sent e then
    let msg := default empty_message (ev_msg e) in
    match msg_sender msg, msg_target msg with
    | Some sender, Some target => Some (sender, target, msg_type msg)
    | _, _ => None
    end
  else None.

(** The events the loop body does something for. *)
Definition relevant (e : event) : bool :=
  is_state_change e || is_message_sent e || is_matched e.

(** A frame whose state changes carry one of the four state names and whose
    messages and matches go between nodes of the graph. *)
Definition drawable_frame (g : graph) (frame : list event) : Prop :=
  ∀ e, e ∈ frame →
    (is_state_change e = true →
       ∃ s, ev_state e = Some s ∧ known_state s) ∧
    (∀ m, message_of e = Some m → m.1.1 ∈ nodes g ∧ m.1.2 ∈ nodes g) ∧
    (∀ p, matched_pair e = Some p → p.1 ∈ nodes g ∧ p.2 ∈ nodes g).

(** Every matched edge has both end points in the graph. *)
Definition edges_placed (g : graph) (pairs : gset (Z * Z)) : Prop :=
  ∀ p, p ∈ pairs → p.1 ∈ nodes g ∧ p.2 ∈ nodes g.

(** Every node of the graph has one of the four states. *)
Definition states_known (g : graph) (states : gmap Z string) : Prop :=
  ∀ n, n ∈ nodes g → ∃ s, states !! n = Some s ∧ known_state s.

(** An event reduced to its sort key. *)
Definition timestamp_only (e : event) : event :=
  {| ev_type := None; ev_timestamp := Some (timestamp e); ev_node := None;
     ev_state := None; ev_partner := None; ev_msg := None;
     ev_nodes := None; ev_edges := None |}.

(** The end points of a list of edges, in the order [add_edges_from] meets
    them. *)
Definition end_points (es : list (Z * Z)) : list Z :=
  es ≫= λ uv, [uv.1; uv.2].

(** ** Reading the batching loop as a recursive function

    [frames_from w cur anchor l] is what the loop leaves in
    [batched_frames ++ [current_batch]] when it is entered with the current
    batch [cur] and the anchor [anchor] and still has [l] to read
    ([foldl_batch_step] below). *)
Fixpoint frames_from (w : Z) (cur : list event) (anchor : Z) (l : list event)
  : list (list event) :=
  match l with
  | [] => [cur]
  | e :: r =>
      if timestamp e - anchor <=? w
      then frames_from w (cur ++ [e]) anchor r
      else cur :: frames_from w [e] (timestamp e) r
  end.

(** The order the events are sorted in. *)
Definition ts_le (x y : event) : Prop := timestamp x ≤ timestamp y.

(** A frame is non-empty and its events lie within [w] of its first one. *)
Definition within_window (w : Z) (f : list event) : Prop :=
  ∃ a rest, f = a :: rest ∧
    Forall (λ x, 0 ≤ timestamp x - timestamp a ≤ w) f.

(** The event with its sort key written out: a missing timestamp becomes
    the timestamp 0, a present one stays. *)
Definition with_timestamp_0 (e : event) : event :=
  {| ev_type := ev_type e;
     ev_timestamp := Some (timestamp e);
     ev_node := ev_node e; ev_state := ev_state e;
     ev_partner := ev_partner e; ev_msg := ev_msg e;
     ev_nodes := ev_nodes e; ev_edges := ev_edges e |}.

(** What the loop maintains: the current batch starts with the anchor's
    event and stays within the window; what is left to read is in order and
    not before the anchor. *)
Definition batch_inv (w : Z) (cur : list event) (anchor : Z) (l : list event)
  : Prop :=
  (∃ a rest, cur = a :: rest ∧ timestamp a = anchor) ∧
  Forall (λ x, 0 ≤ timestamp x - anchor ≤ w) cur ∧
  StronglySorted ts_le l ∧
  Forall (λ x, anchor ≤ timestamp x) l.

(** * Sorting *)

Section sorting.
Implicit Types (e x : event) (l : list event).

Lemma insert_by_timestamp_perm e l : insert_by_timestamp e l ≡ₚ e :: l.
Proof.
  induction l as [|x r IH]; simpl; [done|].
  destruct (timestamp e <=? timestamp x); [done|].
  rewrite IH. apply perm_swap.
Qed.

Lemma sort_by_timestamp_perm l : sort_by_timestamp l ≡ₚ l.
Proof.
  induction l as [|x r IH]; simpl; [done|].
  by rewrite insert_by_timestamp_perm, IH.
Qed.

Lemma sort_by_timestamp_elem e l : e ∈ sort_by_timestamp l ↔ e ∈ l.
Proof. by rewrite sort_by_timestamp_perm. Qed.

Lemma insert_by_timestamp_sorted e l :
  StronglySorted ts_le l → StronglySorted ts_le (insert_by_timestamp e l).
Proof.
  induction 1 as [|x r Hr IH Hx]; simpl.
  - repeat constructor.
  - destruct (Z.leb_spec (timestamp e) (timestamp x)) as [Hle|Hgt].
    + constructor; [by constructor|].
      constructor; [done|].
      eapply Forall_impl; [exact Hx|]. unfold ts_le. intros; simpl in *; lia.
    + constructor; [done|].
      rewrite insert_by_timestamp_perm. constructor; [|done].
      unfold ts_le; lia.
Qed.

Lemma sort_by_timestamp_sorted l : StronglySorted ts_le (sort_by_timestamp l).
Proof.
  induction l as [|x r IH]; simpl; [constructor|].
  by apply insert_by_timestamp_sorted.
Qed.

(** An element that is not larger than the first one goes in front. *)
Lemma insert_by_timestamp_front e l :
  Forall (ts_le e) l → insert_by_timestamp e l = e :: l.
Proof.
  destruct 1 as [|x r Hx _]; simpl; [done|].
  unfold ts_le in Hx. by rewrite (proj2 (Z.leb_le _ _) Hx).
Qed.

(** A list that is already in order is left as it is. *)
Lemma sort_by_timestamp_id l :
  StronglySorted ts_le l → sort_by_timestamp l = l.
Proof.
  induction 1 as [|x r Hr IH Hx]; simpl; [done|].
  rewrite IH. by apply insert_by_timestamp_front.
Qed.

(** Stability: events with one and the same key keep their input order. *)
Lemma insert_by_timestamp_stable k e l :
  List.filter (λ x, timestamp x =? k) (insert_by_timestamp e l)
  = List.filter (λ x, timestamp x =? k) (e :: l).
Proof.
  induction l as [|x r IH]; [done|].
  cbn [insert_by_timestamp].
  destruct (Z.leb_spec (timestamp e) (timestamp x)) as [Hle|Hgt]; [done|].
  cbn [List.filter] in *. rewrite IH.
  destruct (Z.eqb_spec (timestamp x) k), (Z.eqb_spec (timestamp e) k);
    try done; lia.
Qed.

Lemma sort_by_timestamp_stable k l :
  List.filter (λ x, timestamp x =? k) (sort_by_timestamp l)
  = List.filter (λ x, timestamp x =? k) l.
Proof.
  induction l as [|x r IH]; [done|].
  cbn [sort_by_timestamp foldr]. rewrite insert_by_timestamp_stable.
  cbn [List.filter]. fold (sort_by_timestamp r). by rewrite IH.
Qed.

(** Sorting commutes with a map that keeps the key. *)
Lemma insert_by_timestamp_map (f : event → event) e l :
  (∀ x, timestamp (f x) = timestamp x) →
  insert_by_timestamp (f e) (f <$> l) = f <$> insert_by_timestamp e l.
Proof.
  intros Hf. induction l as [|x r IH]; [done|].
  cbn [fmap list_fmap insert_by_timestamp]. rewrite !Hf.
  destruct (timestamp e <=? timestamp x); [done|].
  cbn [fmap list_fmap] in *. by rewrite IH.
Qed.

Lemma sort_by_timestamp_map (f : event → event) l :
  (∀ x, timestamp (f x) = timestamp x) →
  sort_by_timestamp (f <$> l) = f <$> sort_by_timestamp l.
Proof.
  intros Hf. unfold sort_by_timestamp.
  induction l as [|x r IH]; [done|].
  csimpl. rewrite IH. by apply insert_by_timestamp_map.
Qed.

End sorting.

(** * The batching loop *)

Section batching.
Variable w : Z.
Implicit Types (e x a : event) (l cur f : list event) (anchor : Z).

Lemma batch_step_within b e :
  timestamp e - window_start b ≤ w →
  batch_step w b e =
    {| batched_frames := batched_frames b;
       current_batch  := current_batch b ++ [e];
       window_start   := window_start b |}.
Proof.
  intros H. unfold batch_step. by rewrite (proj2 (Z.leb_le _ _) H).
Qed.

Lemma batch_step_beyond b e :
  timestamp e - window_start b > w →
  batch_step w b e =
    {| batched_frames := batched_frames b ++ [current_batch b];
       current_batch  := [e];
       window_start   := timestamp e |}.
Proof.
  intros H. unfold batch_step.
  destruct (Z.leb_spec (timestamp e - window_start b) w); [lia|done].
Qed.

(** The loop and its recursive reading agree. *)
Lemma foldl_batch_step l b :
  let b' := foldl (batch_step w) b l in
  batched_frames b' ++ [current_batch b']
  = batched_frames b ++ frames_from w (current_batch b) (window_start b) l.
Proof.
  revert b. induction l as [|e r IH]; intros b; simpl; [done|].
  rewrite IH. unfold batch_step.
  destruct (timestamp e - window_start b <=? w); simpl; [done|].
  by rewrite <- app_assoc.
Qed.

(** Once an event has been read the current batch is never empty. *)
Lemma foldl_batch_step_nonempty l b :
  current_batch b ≠ [] → current_batch (foldl (batch_step w) b l) ≠ [].
Proof.
  revert b. induction l as [|e r IH]; intros b Hb; simpl; [done|].
  apply IH. unfold batch_step.
  destruct (timestamp e - window_start b <=? w); simpl; [|done].
  by destruct (current_batch b).
Qed.

Lemma close_batch_nonempty b :
  current_batch b ≠ [] → close_batch b = batched_frames b ++ [current_batch b].
Proof. unfold close_batch. by destruct (current_batch b). Qed.

(** With a window that is not negative the first sorted event opens the
    first batch, and the result is the recursive reading of the rest. *)
Lemma group_events_by_time_with_frames events s0 srest :
  0 ≤ w →
  sort_by_timestamp events = s0 :: srest →
  group_events_by_time_with w events
  = frames_from w [s0] (timestamp s0) srest.
Proof.
  intros Hw Hs. unfold group_events_by_time_with.
  destruct events as [|e0 rest]; [done|]. cbv zeta. rewrite Hs.
  cbn [head from_option foldl].
  rewrite batch_step_within by (simpl; lia). cbn [batched_frames current_batch window_start app].
  rewrite close_batch_nonempty by (by apply foldl_batch_step_nonempty).
  by rewrite foldl_batch_step.
Qed.

Lemma frames_from_concat l cur anchor :
  concat (frames_from w cur anchor l) = cur ++ l.
Proof.
  revert cur anchor. induction l as [|e r IH]; intros cur anchor; simpl.
  - by rewrite app_nil_r.
  - destruct (timestamp e - anchor <=? w); simpl; rewrite IH; [|done].
    by rewrite <- app_assoc.
Qed.

Lemma frames_from_elem l cur anchor f x :
  f ∈ frames_from w cur anchor l → x ∈ f → x ∈ cur ++ l.
Proof.
  intros Hf Hx. rewrite <- (frames_from_concat l cur anchor).
  apply list_elem_of_In, in_concat. exists f.
  by rewrite <- !list_elem_of_In.
Qed.

(** The first frame starts with the batch the loop was entered with. *)
Lemma frames_from_head l cur anchor :
  cur ≠ [] →
  ∃ f fs, frames_from w cur anchor l = f :: fs ∧ head f = head cur.
Proof.
  revert cur. induction l as [|e r IH]; intros cur Hcur; simpl; [eauto|].
  destruct (timestamp e - anchor <=? w); [|eauto].
  destruct (IH (cur ++ [e])) as (f & fs & -> & Hf); [by destruct cur|].
  exists f, fs. split; [done|]. rewrite Hf. by destruct cur.
Qed.

Lemma batch_inv_within cur anchor e r :
  batch_inv w cur anchor (e :: r) → timestamp e - anchor ≤ w →
  batch_inv w (cur ++ [e]) anchor r.
Proof.
  intros ((a & rest & -> & Ha) & Hcur & Hs & Hl) He.
  apply StronglySorted_inv in Hs as [Hs _].
  apply Forall_cons in Hl as [Hle Hl].
  split_and!; [by exists a, (rest ++ [e])| |done|done].
  apply Forall_app; split; [done|]. apply Forall_singleton. lia.
Qed.

Lemma batch_inv_beyond cur anchor e r :
  0 ≤ w → batch_inv w cur anchor (e :: r) → batch_inv w [e] (timestamp e) r.
Proof.
  intros Hw (_ & _ & Hs & _).
  apply StronglySorted_inv in Hs as [Hs He].
  split_and!; [by exists e, []| |done|done].
  apply Forall_singleton. lia.
Qed.

Lemma batch_inv_start s0 srest :
  0 ≤ w → StronglySorted ts_le (s0 :: srest) →
  batch_inv w [s0] (timestamp s0) srest.
Proof.
  intros Hw Hs. apply StronglySorted_inv in Hs as [Hs He].
  split_and!; [by exists s0, []| |done|done].
  apply Forall_singleton. lia.
Qed.

(** Every frame is non-empty and within the window of its first event. *)
Lemma frames_from_within l cur anchor :
  0 ≤ w → batch_inv w cur anchor l →
  Forall (within_window w) (frames_from w cur anchor l).
Proof.
  intros Hw. revert cur anchor.
  induction l as [|e r IH]; intros cur anchor Hinv; simpl.
  - destruct Hinv as ((a & rest & -> & <-) & Hcur & _).
    apply Forall_singleton. by exists a, rest.
  - destruct (Z.leb_spec (timestamp e - anchor) w) as [Hle|Hgt].
    + apply IH. by apply batch_inv_within.
    + constructor; [|apply IH; by eapply batch_inv_beyond].
      destruct Hinv as ((a & rest & -> & <-) & Hcur & _). by exists a, rest.
Qed.

(** A frame holds every event of the input that lies within the window of
    the frame's first event, the boundary included. *)
Lemma frames_from_complete l cur anchor f a x :
  0 ≤ w → batch_inv w cur anchor l →
  f ∈ frames_from w cur anchor l → head f = Some a →
  x ∈ cur ++ l →
  timestamp a ≤ timestamp x ≤ timestamp a + w →
  x ∈ f.
Proof.
  intros Hw. revert cur anchor.
  induction l as [|e r IH]; intros cur anchor Hinv Hf Ha Hx Hts; simpl in Hf.
  - apply list_elem_of_singleton in Hf as ->. by rewrite app_nil_r in Hx.
  - destruct (Z.leb_spec (timestamp e - anchor) w) as [Hle|Hgt].
    + eapply IH; [by apply batch_inv_within|done|done| |done].
      by rewrite <- app_assoc.
    + pose proof Hinv as ((a0 & rest & -> & Ha0) & Hcur & Hs & Hl).
      apply StronglySorted_inv in Hs as [Hs He].
      apply elem_of_cons in Hf as [->|Hf].
      * simpl in Ha. simplify_eq.
        apply elem_of_app in Hx as [Hx|Hx]; [done|].
        apply elem_of_cons in Hx as [->|Hx]; [lia|].
        rewrite Forall_forall in He. specialize (He _ Hx).
        unfold ts_le in He. lia.
      * assert (a ∈ [e] ++ r) as Har.
        { eapply frames_from_elem; [done|]. by apply head_Some_elem_of. }
        assert (timestamp e ≤ timestamp a) as Hea.
        { apply elem_of_cons in Har as [->|Har]; [lia|].
          rewrite Forall_forall in He. by apply He. }
        eapply IH; [by eapply batch_inv_beyond|done|done| |done].
        apply elem_of_app in Hx as [Hx|Hx]; [|done].
        rewrite Forall_forall in Hcur. specialize (Hcur _ Hx). lia.
Qed.

(** The first event of a frame lies more than the window after the first
    event of the frame before it. *)
Lemma frames_from_gap l cur anchor i f g a b :
  0 ≤ w → batch_inv w cur anchor l →
  frames_from w cur anchor l !! i = Some f →
  frames_from w cur anchor l !! S i = Some g →
  head f = Some a → head g = Some b →
  timestamp b - timestamp a > w.
Proof.
  intros Hw. revert cur anchor i.
  induction l as [|e r IH]; intros cur anchor i Hinv Hf Hg Ha Hb;
    simpl in Hf, Hg; [done|].
  destruct (Z.leb_spec (timestamp e - anchor) w) as [Hle|Hgt].
  - eapply IH; [by apply batch_inv_within|done..].
  - destruct i as [|i]; simpl in Hf, Hg.
    + simplify_eq.
      destruct Hinv as ((a0 & rest & -> & Ha0) & _). simpl in Ha. simplify_eq.
      destruct (frames_from_head r [e] (timestamp e)) as (f' & fs & Heq & Hhd);
        [done|].
      rewrite Heq in Hg. injection Hg as ->.
      rewrite Hhd in Hb. simpl in Hb. injection Hb as ->. lia.
    + eapply IH; [by eapply batch_inv_beyond|done..].
Qed.
End batching.

(** * The frames [group_events_by_time] returns *)

Section frames.
Variable w : Z.
Hypothesis w_nonneg : 0 ≤ w.
Implicit Types (e x a : event) (events f : list event).

(** Either there is no event and no frame, or the frames are those read off
    the sorted events, starting with the first one as the anchor. *)
Lemma group_events_by_time_with_cases events :
  (events = [] ∧ group_events_by_time_with w events = []) ∨
  ∃ s0 srest,
    sort_by_timestamp events = s0 :: srest ∧
    group_events_by_time_with w events
      = frames_from w [s0] (timestamp s0) srest ∧
    batch_inv w [s0] (timestamp s0) srest.
Proof.
  destruct events as [|e0 rest]; [by left|right].
  destruct (sort_by_timestamp (e0 :: rest)) as [|s0 srest] eqn:Hs.
  { pose proof (sort_by_timestamp_perm (e0 :: rest)) as Hp.
    rewrite Hs in Hp. by apply Permutation_nil_cons in Hp. }
  exists s0, srest. split_and!; [done| |].
  - by apply group_events_by_time_with_frames.
  - apply batch_inv_start; [done|]. rewrite <- Hs.
    apply sort_by_timestamp_sorted.
Qed.

Lemma group_events_by_time_with_concat events :
  concat (group_events_by_time_with w events) = sort_by_timestamp events.
Proof.
  destruct (group_events_by_time_with_cases events)
    as [[-> ->]|(s0 & srest & Hs & -> & _)]; [done|].
  by rewrite frames_from_concat, Hs.
Qed.

Lemma group_events_by_time_with_within events :
  Forall (within_window w) (group_events_by_time_with w events).
Proof.
  destruct (group_events_by_time_with_cases events)
    as [[-> ->]|(s0 & srest & Hs & -> & Hinv)]; [constructor|].
  by apply frames_from_within.
Qed.

Lemma group_events_by_time_with_complete events f a x :
  f ∈ group_events_by_time_with w events → head f = Some a →
  x ∈ events →
  timestamp a ≤ timestamp x ≤ timestamp a + w →
  x ∈ f.
Proof.
  destruct (group_events_by_time_with_cases events)
    as [[-> ->]|(s0 & srest & Hs & -> & Hinv)]; [by intros ?%elem_of_nil|].
  intros Hf Ha Hx Hts.
  eapply frames_from_complete; [done..| |done].
  simpl. rewrite <- Hs. by apply sort_by_timestamp_elem.
Qed.

Lemma group_events_by_time_with_gap events i f g a b :
  group_events_by_time_with w events !! i = Some f →
  group_events_by_time_with w events !! S i = Some g →
  head f = Some a → head g = Some b →
  timestamp b - timestamp a > w.
Proof.
  destruct (group_events_by_time_with_cases events)
    as [[-> ->]|(s0 & srest & Hs & -> & Hinv)]; [done|].
  by apply frames_from_gap.
Qed.

(** Every event of the input is in some frame. *)
Lemma group_events_by_time_with_covers events x :
  x ∈ events → ∃ f, f ∈ group_events_by_time_with w events ∧ x ∈ f.
Proof.
  intros Hx. apply sort_by_timestamp_elem in Hx.
  rewrite <- group_events_by_time_with_concat in Hx.
  apply list_elem_of_In, in_concat in Hx as (f & Hf & Hx).
  exists f. by rewrite !list_elem_of_In.
Qed.

Lemma group_events_by_time_with_same_timestamp events e1 e2 :
  e1 ∈ events → e2 ∈ events → timestamp e1 = timestamp e2 →
  ∃ f, f ∈ group_events_by_time_with w events ∧ e1 ∈ f ∧ e2 ∈ f.
Proof.
  intros H1 H2 Hts.
  destruct (group_events_by_time_with_covers events e1 H1) as (f & Hf & Hin).
  exists f. split_and!; [done..|].
  pose proof (group_events_by_time_with_within events) as Hw.
  rewrite Forall_forall in Hw.
  destruct (Hw f Hf) as (a & rest & -> & Hall).
  rewrite Forall_forall in Hall. specialize (Hall _ Hin).
  eapply group_events_by_time_with_complete; [done..|]. lia.
Qed.
End frames.

(** When nothing left to read leaves the window, one batch takes it all. *)
Lemma frames_from_single w l cur anchor :
  Forall (λ x, timestamp x - anchor ≤ w) l →
  frames_from w cur anchor l = [cur ++ l].
Proof.
  revert cur. induction l as [|e r IH]; intros cur Hl; simpl.
  - by rewrite app_nil_r.
  - apply Forall_cons in Hl as [He Hl].
    rewrite (proj2 (Z.leb_le _ _) He), IH by done. by rewrite <- app_assoc.
Qed.

Lemma TIME_WINDOW_NS_nonneg : 0 ≤ TIME_WINDOW_NS.
Proof. unfold TIME_WINDOW_NS. lia. Qed.

(** Batching commutes with a map on events that keeps their sort key. *)
Section relabel.
Variables (w : Z) (h : event → event).
Hypothesis h_timestamp : ∀ x, timestamp (h x) = timestamp x.

Lemma foldl_batch_step_map (l : list event) (b : batcher) :
  foldl (batch_step w)
    {| batched_frames := fmap (M:=list) h <$> batched_frames b;
       current_batch  := h <$> current_batch b;
       window_start   := window_start b |} (h <$> l)
  = let b' := foldl (batch_step w) b l in
    {| batched_frames := fmap (M:=list) h <$> batched_frames b';
       current_batch  := h <$> current_batch b';
       window_start   := window_start b' |}.
Proof.
  revert b. induction l as [|e r IH]; intros b; [done|].
  csimpl. rewrite <- IH. f_equal.
  unfold batch_step. cbn [batched_frames current_batch window_start].
  rewrite h_timestamp.
  destruct (timestamp e - window_start b <=? w);
    cbn [batched_frames current_batch window_start];
    by rewrite fmap_app.
Qed.

Lemma group_events_by_time_with_map (events : list event) :
  group_events_by_time_with w (h <$> events)
  = fmap (M:=list) h <$> group_events_by_time_with w events.
Proof.
  destruct events as [|e0 rest]; [done|].
  unfold group_events_by_time_with. change (h <$> e0 :: rest) with (h e0 :: (h <$> rest)).
  cbv zeta. change (h e0 :: (h <$> rest)) with (h <$> e0 :: rest).
  rewrite sort_by_timestamp_map by done.
  set (s := sort_by_timestamp (e0 :: rest)).
  assert (from_option timestamp 0 (head (h <$> s))
          = from_option timestamp 0 (head s)) as ->.
  { destruct s; [done|]. simpl. apply h_timestamp. }
  pose proof (foldl_batch_step_map s
    {| batched_frames := []; current_batch := [];
       window_start := from_option timestamp 0 (head s) |}) as Hm.
  cbn [batched_frames current_batch window_start fmap list_fmap] in Hm.
  rewrite Hm. cbv zeta. unfold close_batch.
  cbn [batched_frames current_batch window_start].
  destruct (current_batch (foldl _ _ s)); csimpl; [done|].
  by rewrite fmap_app.
Qed.
End relabel.

(** * Claims about the temporal batcher *)

(** The anchor follows the data: the batch opened at 50 ms takes the event
    at 120 ms, across the 100 ms mark of a fixed grid, and the event at
    160 ms, more than a window after the anchor, opens the next batch. *)
Example anchor_is_not_a_grid (e1 e2 e3 : event) :
  timestamp e1 = 50000000 → timestamp e2 = 120000000 →
  timestamp e3 = 160000000 →
  group_events_by_time [e1; e2; e3] = [[e1; e2]; [e3]].
Proof.
  intros H1 H2 H3. unfold group_events_by_time.
  rewrite (group_events_by_time_with_frames _ _ e1 [e2; e3]).
  - cbn [frames_from]. by rewrite H1, H2, H3.
  - apply TIME_WINDOW_NS_nonneg.
  - apply sort_by_timestamp_id.
    repeat constructor; unfold ts_le; lia.
Qed.

(** C1. Batching uses a sliding anchor.  Four events with the timestamps
    0, 50 ms, 90 ms and 250 ms and a window of 100 ms give exactly two
    frames, the first with the events at 0, 50 ms and 90 ms, the second with
    the event at 250 ms.  In general an event whose timestamp exceeds the
    anchor by more than the window closes the current batch, opens a batch
    with itself and becomes the anchor; so the frames returned are
    consecutive runs of the sorted events, each within the window of its
    first event, and the first event of a frame lies more than a window
    after the first event of the frame before it. *)
Theorem batching_uses_a_sliding_anchor :
  (∀ e1 e2 e3 e4 : event,
     timestamp e1 = 0 → timestamp e2 = 50000000 →
     timestamp e3 = 90000000 → timestamp e4 = 250000000 →
     group_events_by_time_with 100000000 [e1; e2; e3; e4]
       = [[e1; e2; e3]; [e4]] ∧
     group_events_by_time [e1; e2; e3; e4] = [[e1; e2; e3]; [e4]]) ∧
  (∀ (w : Z) (b : batcher) (e : event),
     timestamp e - window_start b > w →
     batch_step w b e =
       {| batched_frames := batched_frames b ++ [current_batch b];
          current_batch  := [e];
          window_start   := timestamp e |}) ∧
  (∀ (w : Z) (events : list event),
     0 ≤ w →
     concat (group_events_by_time_with w events) = sort_by_timestamp events ∧
     Forall (within_window w) (group_events_by_time_with w events) ∧
     ∀ i f g a b,
       group_events_by_time_with w events !! i = Some f →
       group_events_by_time_with w events !! S i = Some g →
       head f = Some a → head g = Some b →
       timestamp b - timestamp a > w).
Proof.
  split_and!.
  - intros e1 e2 e3 e4 H1 H2 H3 H4.
    assert (group_events_by_time_with 100000000 [e1; e2; e3; e4]
            = [[e1; e2; e3]; [e4]]) as Hg; [|by split].
    rewrite (group_events_by_time_with_frames _ _ e1 [e2; e3; e4]).
    + cbn [frames_from]. by rewrite H1, H2, H3, H4.
    + lia.
    + apply sort_by_timestamp_id.
      repeat constructor; unfold ts_le; lia.
  - apply batch_step_beyond.
  - intros w events Hw. split_and!.
    + by apply group_events_by_time_with_concat.
    + by apply group_events_by_time_with_within.
    + intros i f g a b Hf Hg Ha Hb.
      by apply (group_events_by_time_with_gap w Hw events i f g a b).
Qed.

Lemma batching_uses_a_sliding_anchor_witness :
  group_events_by_time
    [bare "MSG_SENT" (Some 0); bare "MSG_SENT" (Some 50000000);
     bare "MSG_SENT" (Some 90000000); bare "MSG_SENT" (Some 250000000)]
  = [[bare "MSG_SENT" (Some 0); bare "MSG_SENT" (Some 50000000);
      bare "MSG_SENT" (Some 90000000)];
     [bare "MSG_SENT" (Some 250000000)]] ∧
  batch_step 100000000
    {| batched_frames := [];
       current_batch := [bare "MSG_SENT" (Some 0)];
       window_start := 0 |}
    (bare "MSG_SENT" (Some 250000000))
  = {| batched_frames := [[bare "MSG_SENT" (Some 0)]];
       current_batch := [bare "MSG_SENT" (Some 250000000)];
       window_start := 250000000 |} ∧
  Forall (within_window 100000000)
    (group_events_by_time_with 100000000
       [bare "MSG_SENT" (Some 250000000); bare "MSG_SENT" (Some 0)]).
Proof.
  destruct batching_uses_a_sliding_anchor as (Hex & Hstep & Hgen).
  split; [|split].
  - apply Hex; reflexivity.
  - apply (Hstep 100000000
      {| batched_frames := []; current_batch := [bare "MSG_SENT" (Some 0)];
         window_start := 0 |}). reflexivity.
  - apply Hgen. lia.
Defined.

(** Why the statements about frames below take a window that is not
    negative: with a negative one, which the program's constant is not, the
    first event already fails the test against itself. *)
Example negative_window_splits (e1 e2 : event) :
  timestamp e1 = timestamp e2 →
  group_events_by_time_with (-1) [e1; e2] = [[]; [e1]; [e2]].
Proof.
  intros H. unfold group_events_by_time_with, sort_by_timestamp. simpl.
  rewrite H, Z.leb_refl. simpl. unfold batch_step. simpl.
  rewrite Z.sub_diag. simpl. rewrite H, Z.sub_diag. reflexivity.
Qed.

(** C3. The window comparison is inclusive.  For every window length an
    event whose timestamp is exactly the anchor plus the window is appended
    to the current batch.  In the frames returned, for a window that is not
    negative (the program's is 100 ms), an event at exactly the window after
    a frame's first event is in that frame, and two events with the same
    timestamp are together in one frame. *)
Theorem window_comparison_is_inclusive :
  (∀ (w : Z) (b : batcher) (e : event),
     timestamp e = window_start b + w →
     batch_step w b e =
       {| batched_frames := batched_frames b;
          current_batch  := current_batch b ++ [e];
          window_start   := window_start b |}) ∧
  (∀ (w : Z) (events f : list event) (a e : event),
     0 ≤ w →
     f ∈ group_events_by_time_with w events → head f = Some a →
     e ∈ events → timestamp e = timestamp a + w →
     e ∈ f) ∧
  (∀ (w : Z) (events : list event) (e1 e2 : event),
     0 ≤ w →
     e1 ∈ events → e2 ∈ events → timestamp e1 = timestamp e2 →
     ∃ f, f ∈ group_events_by_time_with w events ∧ e1 ∈ f ∧ e2 ∈ f) ∧
  (∀ (events : list event) (e1 e2 : event),
     e1 ∈ events → e2 ∈ events → timestamp e1 = timestamp e2 →
     ∃ f, f ∈ group_events_by_time events ∧ e1 ∈ f ∧ e2 ∈ f).
Proof.
  split_and!.
  - intros w b e He. apply batch_step_within. lia.
  - intros w events f a e Hw Hf Ha He Hts.
    eapply group_events_by_time_with_complete; [done..|]. lia.
  - intros w events e1 e2 Hw. by apply group_events_by_time_with_same_timestamp.
  - intros events e1 e2.
    apply group_events_by_time_with_same_timestamp, TIME_WINDOW_NS_nonneg.
Qed.

Lemma window_comparison_is_inclusive_witness :
  batch_step 100000000
    {| batched_frames := [];
       current_batch := [bare "MATCHED" (Some 7)];
       window_start := 7 |}
    (bare "MSG_SENT" (Some 100000007))
  = {| batched_frames := [];
       current_batch := [bare "MATCHED" (Some 7); bare "MSG_SENT" (Some 100000007)];
       window_start := 7 |} ∧
  bare "MSG_SENT" (Some 100000007)
    ∈ [bare "MATCHED" (Some 7); bare "MSG_SENT" (Some 100000007)] ∧
  ∃ f, f ∈ group_events_by_time
             [bare "MSG_SENT" (Some 5); bare "MATCHED" (Some 5)]
       ∧ bare "MSG_SENT" (Some 5) ∈ f ∧ bare "MATCHED" (Some 5) ∈ f.
Proof.
  destruct window_comparison_is_inclusive as (Hstep & Hin & _ & Hsame).
  split; [|split].
  - apply (Hstep 100000000
      {| batched_frames := []; current_batch := [bare "MATCHED" (Some 7)];
         window_start := 7 |}). reflexivity.
  - apply (Hin 100000000
      [bare "MSG_SENT" (Some 100000007); bare "MATCHED" (Some 7)]
      _ (bare "MATCHED" (Some 7))).
    + lia.
    + vm_compute. apply list_elem_of_here.
    + reflexivity.
    + apply list_elem_of_here.
    + reflexivity.
  - apply Hsame.
    + apply list_elem_of_here.
    + apply list_elem_of_further, list_elem_of_here.
    + reflexivity.
Defined.

Lemma timestamp_with_timestamp_0 (e : event) :
  timestamp (with_timestamp_0 e) = timestamp e.
Proof. done. Qed.

(** The first frame starts with the first event of the sorted log. *)
Lemma group_events_by_time_first_frame (events : list event) (s0 : event)
    (srest : list event) :
  sort_by_timestamp events = s0 :: srest →
  ∃ f rest, group_events_by_time events = f :: rest ∧ head f = Some s0.
Proof.
  intros Hs. unfold group_events_by_time.
  rewrite (group_events_by_time_with_frames _ _ s0 srest);
    [|apply TIME_WINDOW_NS_nonneg|done].
  destruct (frames_from_head TIME_WINDOW_NS srest [s0] (timestamp s0))
    as (f & rest & -> & Hf); [done|]. eauto.
Qed.

(** C10 as stated fails when a timestamp is negative: the event without a
    timestamp is sorted after the event at -200 ms, which is the earliest,
    and is put in the second frame. *)
Lemma event_without_timestamp_after_negative :
  ev_timestamp (bare "MSG_SENT" None) = None ∧
  timestamp (bare "MATCHED" (Some (-200000000)))
    < timestamp (bare "MSG_SENT" None) ∧
  group_events_by_time
    [bare "MSG_SENT" None; bare "MATCHED" (Some (-200000000))]
  = [[bare "MATCHED" (Some (-200000000))]; [bare "MSG_SENT" None]].
Proof. split_and!; [reflexivity|reflexivity|]. vm_compute. reflexivity. Qed.

(** C10, amended.  An event without a timestamp field is batched as an
    event with timestamp 0.  Its key is 0, and the frames of a log are those
    of the same log with the missing timestamps written out as 0.  In the
    order of the frames it comes after every event with a negative timestamp
    and before every event with a positive one, and the events with key 0
    keep their input order.  It is in the frame whose first event lies at
    most a window before 0 and not after 0.  When no timestamp is negative
    it is in the first frame, whose anchor is then 0 and which holds the
    events up to the window.  A log that consists only of events without a
    timestamp gives one frame, the log itself in its input order. *)
Theorem missing_timestamp_is_zero :
  (∀ e : event, ev_timestamp e = None → timestamp e = 0) ∧
  (∀ e : event,
     ev_timestamp e = None → ev_timestamp (with_timestamp_0 e) = Some 0) ∧
  (∀ events : list event,
     group_events_by_time (with_timestamp_0 <$> events)
     = fmap (M:=list) with_timestamp_0 <$> group_events_by_time events) ∧
  (∀ (events pre post : list event) (e : event),
     ev_timestamp e = None →
     concat (group_events_by_time events) = pre ++ e :: post →
     Forall (λ x, timestamp x ≤ 0) pre ∧
     Forall (λ x, 0 ≤ timestamp x) post) ∧
  (∀ events : list event,
     List.filter (λ x, timestamp x =? 0) (concat (group_events_by_time events))
     = List.filter (λ x, timestamp x =? 0) events) ∧
  (∀ (events f : list event) (e a : event),
     ev_timestamp e = None → e ∈ events →
     f ∈ group_events_by_time events → head f = Some a →
     (e ∈ f ↔ timestamp a ≤ 0 ≤ timestamp a + TIME_WINDOW_NS)) ∧
  (∀ (events : list event) (e : event),
     ev_timestamp e = None → e ∈ events →
     Forall (λ x, 0 ≤ timestamp x) events →
     ∃ f rest a,
       group_events_by_time events = f :: rest ∧
       head f = Some a ∧ timestamp a = 0 ∧ e ∈ f ∧
       ∀ x, x ∈ events → (x ∈ f ↔ timestamp x ≤ TIME_WINDOW_NS)) ∧
  (∀ events : list event,
     events ≠ [] →
     Forall (λ e, ev_timestamp e = None) events →
     group_events_by_time events = [events]).
Proof.
  assert (∀ e : event, ev_timestamp e = None → timestamp e = 0) as Hkey.
  { intros e He. unfold timestamp. by rewrite He. }
  assert (∀ (events f : list event) (x a : event),
    f ∈ group_events_by_time events → head f = Some a → x ∈ f →
    0 ≤ timestamp x - timestamp a ≤ TIME_WINDOW_NS) as Hin.
  { intros events f x a Hf Ha Hx.
    pose proof (group_events_by_time_with_within _ TIME_WINDOW_NS_nonneg
                  events) as Hw.
    rewrite Forall_forall in Hw.
    destruct (Hw f Hf) as (a' & rest & -> & Hall). injection Ha as ->.
    rewrite Forall_forall in Hall. by apply Hall. }
  split_and!.
  - done.
  - intros e He. unfold with_timestamp_0, timestamp. simpl. by rewrite He.
  - intros events. unfold group_events_by_time.
    apply group_events_by_time_with_map, timestamp_with_timestamp_0.
  - intros events pre post e He Hc. unfold group_events_by_time in Hc.
    rewrite (group_events_by_time_with_concat _ TIME_WINDOW_NS_nonneg) in Hc.
    pose proof (sort_by_timestamp_sorted events) as Hs. rewrite Hc in Hs.
    pose proof (Hkey e He) as H0. split.
    + apply Forall_forall. intros x Hx.
      pose proof (StronglySorted_app_1_elem_of _ _ _ x e Hs Hx) as Hle.
      unfold ts_le in Hle. rewrite H0 in Hle. apply Hle. by left.
    + apply StronglySorted_app_1_r, StronglySorted_inv in Hs as [_ Hs].
      eapply Forall_impl; [exact Hs|]. intros x Hx.
      unfold ts_le in Hx. by rewrite H0 in Hx.
  - intros events. unfold group_events_by_time.
    rewrite (group_events_by_time_with_concat _ TIME_WINDOW_NS_nonneg).
    apply sort_by_timestamp_stable.
  - intros events f e a He Hev Hf Ha. pose proof (Hkey e He) as H0. split.
    + intros Hef. pose proof (Hin events f e a Hf Ha Hef). lia.
    + intros Hts.
      apply (group_events_by_time_with_complete _ TIME_WINDOW_NS_nonneg
               events f a e); [done..|lia].
  - intros events e He Hev Hnn. pose proof (Hkey e He) as H0.
    rewrite Forall_forall in Hnn.
    destruct (sort_by_timestamp events) as [|s0 srest] eqn:Hs.
    { apply sort_by_timestamp_elem in Hev. rewrite Hs in Hev.
      by apply elem_of_nil in Hev. }
    destruct (group_events_by_time_first_frame events s0 srest Hs)
      as (f & rest & Hg & Hhd).
    assert (f ∈ group_events_by_time events) as Hf.
    { rewrite Hg. by left. }
    assert (timestamp s0 = 0) as Hs0.
    { assert (s0 ∈ events) as Hin0.
      { apply sort_by_timestamp_elem. rewrite Hs. by left. }
      pose proof (Hnn s0 Hin0).
      pose proof (sort_by_timestamp_sorted events) as Hso. rewrite Hs in Hso.
      apply StronglySorted_inv in Hso as [_ Hso].
      apply sort_by_timestamp_elem in Hev. rewrite Hs in Hev.
      apply elem_of_cons in Hev as [->|Hev]; [done|].
      rewrite Forall_forall in Hso. specialize (Hso e Hev).
      unfold ts_le in Hso. lia. }
    exists f, rest, s0. split_and!; [done..| |].
    + apply (group_events_by_time_with_complete _ TIME_WINDOW_NS_nonneg
               events f s0 e); [done..|].
      pose proof TIME_WINDOW_NS_nonneg. lia.
    + intros x Hx. split.
      * intros Hxf. pose proof (Hin events f x s0 Hf Hhd Hxf). lia.
      * intros Hle.
        apply (group_events_by_time_with_complete _ TIME_WINDOW_NS_nonneg
                 events f s0 x); [done..|].
        pose proof (Hnn x Hx). simpl in *. lia.
  - intros events Hne Hall.
    assert (Forall (λ e, timestamp e = 0) events) as Hz.
    { eapply Forall_impl; [exact Hall|]. intros e He. by apply Hkey. }
    assert (StronglySorted ts_le events) as Hs.
    { clear Hne Hall. induction Hz as [|x r Hx Hr IH]; constructor; [done|].
      eapply Forall_impl; [exact Hr|]. intros y Hy.
      unfold ts_le. simpl in *. lia. }
    destruct events as [|e0 rest]; [done|].
    unfold group_events_by_time.
    rewrite (group_events_by_time_with_frames _ _ e0 rest).
    + apply Forall_cons in Hz as [H0 Hz].
      rewrite frames_from_single; [done|].
      eapply Forall_impl; [exact Hz|]. intros y Hy. simpl in *.
      unfold TIME_WINDOW_NS. lia.
    + apply TIME_WINDOW_NS_nonneg.
    + by apply sort_by_timestamp_id.
Qed.

Lemma missing_timestamp_is_zero_witness :
  timestamp (bare "MATCHED" None) = 0 ∧
  ev_timestamp (with_timestamp_0 (bare "MATCHED" None)) = Some 0 ∧
  (Forall (λ x, timestamp x ≤ 0) [bare "MSG_SENT" (Some (-7))] ∧
   Forall (λ x, 0 ≤ timestamp x) [bare "STATE_CHANGE" (Some 5)]) ∧
  (bare "MATCHED" None
     ∈ [bare "MSG_SENT" (Some (-7)); bare "MATCHED" None;
        bare "STATE_CHANGE" (Some 5)]
   ↔ timestamp (bare "MSG_SENT" (Some (-7))) ≤ 0
     ≤ timestamp (bare "MSG_SENT" (Some (-7))) + TIME_WINDOW_NS) ∧
  (∃ f rest a,
     group_events_by_time
       [bare "STATE_CHANGE" (Some 100000001); bare "MSG_SENT" (Some 5);
        bare "MATCHED" None] = f :: rest ∧
     head f = Some a ∧ timestamp a = 0 ∧ bare "MATCHED" None ∈ f ∧
     ∀ x, x ∈ [bare "STATE_CHANGE" (Some 100000001);
               bare "MSG_SENT" (Some 5); bare "MATCHED" None] →
          (x ∈ f ↔ timestamp x ≤ TIME_WINDOW_NS)) ∧
  group_events_by_time
    [bare "MATCHED" None; bare "MSG_SENT" None; bare "STATE_CHANGE" None]
  = [[bare "MATCHED" None; bare "MSG_SENT" None; bare "STATE_CHANGE" None]].
Proof.
  destruct missing_timestamp_is_zero
    as (Hkey & Hzero & _ & Hpos & _ & Hwin & Hfirst & Hone).
  split; [|split; [|split; [|split; [|split]]]].
  - apply Hkey. reflexivity.
  - apply Hzero. reflexivity.
  - apply (Hpos [bare "STATE_CHANGE" (Some 5); bare "MATCHED" None;
                 bare "MSG_SENT" (Some (-7))]
             [bare "MSG_SENT" (Some (-7))] [bare "STATE_CHANGE" (Some 5)]
             (bare "MATCHED" None)).
    + reflexivity.
    + vm_compute. reflexivity.
  - apply (Hwin [bare "STATE_CHANGE" (Some 5); bare "MATCHED" None;
                 bare "MSG_SENT" (Some (-7))]).
    + reflexivity.
    + apply list_elem_of_further, list_elem_of_here.
    + vm_compute. apply list_elem_of_here.
    + reflexivity.
  - apply Hfirst.
    + reflexivity.
    + apply list_elem_of_further, list_elem_of_further, list_elem_of_here.
    + repeat constructor; vm_compute; discriminate.
  - apply Hone.
    + discriminate.
    + repeat constructor.
Defined.

(** * The event loop of [update_frame] *)

Section event_loop.
Implicit Types (st : loop_state) (e : event) (frame : list event).

(** The five ways through the loop body. *)
Lemma event_cases e :
  (∃ node state,
     ev_type e = Some "STATE_CHANGE" ∧
     ev_node e = Some node ∧ ev_state e = Some state) ∨
  (∃ sender target,
     ev_type e = Some "MSG_SENT" ∧
     msg_sender (default empty_message (ev_msg e)) = Some sender ∧
     msg_target (default empty_message (ev_msg e)) = Some target) ∨
  (∃ node partner,
     ev_type e = Some "MATCHED" ∧
     ev_node e = Some node ∧ ev_partner e = Some partner) ∨
  incomplete e = true ∨
  (ev_type e ≠ Some "STATE_CHANGE" ∧ ev_type e ≠ Some "MSG_SENT" ∧
   ev_type e ≠ Some "MATCHED").
Proof.
  unfold incomplete.
  destruct (decide (ev_type e = Some "STATE_CHANGE")) as [Ht|Hsc].
  { rewrite Ht.
    destruct (ev_node e) as [node|], (ev_state e) as [state|]; eauto 10. }
  destruct (decide (ev_type e = Some "MSG_SENT")) as [Ht|Hms].
  { rewrite Ht.
    destruct (msg_sender _) as [sender|], (msg_target _) as [target|];
      eauto 10. }
  destruct (decide (ev_type e = Some "MATCHED")) as [Ht|Hma].
  { rewrite Ht.
    destruct (ev_node e) as [node|], (ev_partner e) as [partner|]; eauto 10. }
  eauto 10.
Qed.

Lemma apply_event_state_change st e node state :
  ev_type e = Some "STATE_CHANGE" →
  ev_node e = Some node → ev_state e = Some state →
  apply_event st e =
    {| node_states         := <[node := state]> (node_states st);
       matched_edges       := matched_edges st;
       active_messages     := active_messages st;
       state_changes_count := S (state_changes_count st);
       message_count       := message_count st;
       match_count         := match_count st |}.
Proof. intros Ht Hn Hs. unfold apply_event. by rewrite Ht, Hn, Hs. Qed.

Lemma apply_event_message_sent st e sender target :
  ev_type e = Some "MSG_SENT" →
  msg_sender (default empty_message (ev_msg e)) = Some sender →
  msg_target (default empty_message (ev_msg e)) = Some target →
  apply_event st e =
    {| node_states         := node_states st;
       matched_edges       := matched_edges st;
       active_messages     :=
         active_messages st
         ++ [(sender, target, msg_type (default empty_message (ev_msg e)))];
       state_changes_count := state_changes_count st;
       message_count       := S (message_count st);
       match_count         := match_count st |}.
Proof. intros Ht Hs Hg. unfold apply_event. by rewrite Ht, Hs, Hg. Qed.

Lemma apply_event_matched st e node partner :
  ev_type e = Some "MATCHED" →
  ev_node e = Some node → ev_partner e = Some partner →
  apply_event st e =
    {| node_states         := <[node := "MATCHED"]> (node_states st);
       matched_edges       :=
         if bool_decide (node ≠ partner)
         then {[ sorted_pair node partner ]} ∪ matched_edges st
         else matched_edges st;
       active_messages     := active_messages st;
       state_changes_count := state_changes_count st;
       message_count       := message_count st;
       match_count         := S (match_count st) |}.
Proof. intros Ht Hn Hp. unfold apply_event. by rewrite Ht, Hn, Hp. Qed.

Lemma incomplete_cases e :
  incomplete e = true →
  (ev_type e = Some "STATE_CHANGE" ∧ (ev_node e = None ∨ ev_state e = None)) ∨
  (ev_type e = Some "MSG_SENT" ∧
   (msg_sender (default empty_message (ev_msg e)) = None ∨
    msg_target (default empty_message (ev_msg e)) = None)) ∨
  (ev_type e = Some "MATCHED" ∧ (ev_node e = None ∨ ev_partner e = None)).
Proof.
  unfold incomplete.
  rewrite !orb_true_iff, !andb_true_iff, !bool_decide_eq_true. tauto.
Qed.

Lemma apply_event_incomplete st e : incomplete e = true → apply_event st e = st.
Proof.
  intros [[Ht H]|[[Ht H]|[Ht H]]]%incomplete_cases;
    unfold apply_event; rewrite Ht; simpl.
  - destruct H as [->| ->]; [done|]. by destruct (ev_node e).
  - destruct H as [->| ->]; [done|]. by destruct (msg_sender _).
  - destruct H as [->| ->]; [done|]. by destruct (ev_node e).
Qed.

Lemma apply_event_other st e :
  ev_type e ≠ Some "STATE_CHANGE" → ev_type e ≠ Some "MSG_SENT" →
  ev_type e ≠ Some "MATCHED" →
  apply_event st e = st.
Proof.
  intros H1 H2 H3. unfold apply_event.
  by rewrite !bool_decide_eq_false_2.
Qed.

(** The counting predicates on the five ways. *)
Lemma kind_of_state_change e node state :
  ev_type e = Some "STATE_CHANGE" →
  ev_node e = Some node → ev_state e = Some state →
  is_state_change e = true ∧ is_message_sent e = false ∧
  is_matched e = false.
Proof.
  intros Ht Hn Hs. unfold is_state_change, is_message_sent, is_matched.
  by rewrite Ht, Hn, Hs.
Qed.

Lemma kind_of_message_sent e sender target :
  ev_type e = Some "MSG_SENT" →
  msg_sender (default empty_message (ev_msg e)) = Some sender →
  msg_target (default empty_message (ev_msg e)) = Some target →
  is_state_change e = false ∧ is_message_sent e = true ∧
  is_matched e = false.
Proof.
  intros Ht Hs Hg. unfold is_state_change, is_message_sent, is_matched.
  rewrite Ht. destruct (ev_msg e) as [m|]; [|done]. simpl in *.
  by rewrite Hs, Hg.
Qed.

Lemma kind_of_matched e node partner :
  ev_type e = Some "MATCHED" →
  ev_node e = Some node → ev_partner e = Some partner →
  is_state_change e = false ∧ is_message_sent e = false ∧
  is_matched e = true.
Proof.
  intros Ht Hn Hp. unfold is_state_change, is_message_sent, is_matched.
  by rewrite Ht, Hn, Hp.
Qed.

Lemma kind_of_incomplete e :
  incomplete e = true →
  is_state_change e = false ∧ is_message_sent e = false ∧
  is_matched e = false.
Proof.
  intros [[Ht H]|[[Ht H]|[Ht H]]]%incomplete_cases;
    unfold is_state_change, is_message_sent, is_matched; rewrite Ht; simpl;
    split_and!; try done.
  - apply bool_decide_eq_false. intros [[? Hn] [? Hs]].
    destruct H; congruence.
  - apply bool_decide_eq_false. intros [[? Hn] [? Hs]].
    destruct (ev_msg e); simpl in *; destruct H; congruence.
  - apply bool_decide_eq_false. intros [[? Hn] [? Hs]].
    destruct H; congruence.
Qed.

Lemma kind_of_other e :
  ev_type e ≠ Some "STATE_CHANGE" → ev_type e ≠ Some "MSG_SENT" →
  ev_type e ≠ Some "MATCHED" →
  is_state_change e = false ∧ is_message_sent e = false ∧
  is_matched e = false.
Proof.
  intros H1 H2 H3. unfold is_state_change, is_message_sent, is_matched.
  by rewrite (bool_decide_eq_false_2 _ H1), (bool_decide_eq_false_2 _ H2),
    (bool_decide_eq_false_2 _ H3).
Qed.
End event_loop.

Section accumulation.
Implicit Types (st : loop_state) (e : event) (frame : list event)
  (self : visualizer).

Lemma apply_events_skip_incomplete st frame :
  foldl apply_event st frame
  = foldl apply_event st (List.filter (λ e, negb (incomplete e)) frame).
Proof.
  revert st. induction frame as [|e r IH]; intros st; simpl; [done|].
  destruct (incomplete e) eqn:He; simpl; [|apply IH].
  by rewrite apply_event_incomplete.
Qed.

Lemma apply_event_matched_edges st e :
  matched_edges st ⊆ matched_edges (apply_event st e).
Proof.
  destruct (event_cases e)
    as [(n & s & Ht & Hn & Hs)|[(a & b & Ht & Ha & Hb)|
        [(n & p & Ht & Hn & Hp)|[Hi|(H1 & H2 & H3)]]]].
  - by rewrite (apply_event_state_change _ _ n s).
  - by rewrite (apply_event_message_sent _ _ a b).
  - rewrite (apply_event_matched _ _ n p) by done. simpl.
    case_bool_decide; set_solver.
  - by rewrite apply_event_incomplete.
  - by rewrite apply_event_other.
Qed.

Lemma apply_events_matched_edges st frame :
  matched_edges st ⊆ matched_edges (foldl apply_event st frame).
Proof.
  revert st. induction frame as [|e r IH]; intros st; simpl; [done|].
  etrans; [apply apply_event_matched_edges|apply IH].
Qed.

Lemma written_nodes_cons e frame :
  written_nodes (e :: frame) = written_nodes [e] ∪ written_nodes frame.
Proof.
  unfold written_nodes. simpl.
  destruct (is_state_change e || is_matched e); [|set_solver].
  destruct (ev_node e); simpl; set_solver.
Qed.

Lemma written_nodes_one e :
  written_nodes [e] =
    if is_state_change e || is_matched e
    then from_option (λ n, {[ n ]}) (∅ : gset Z) (ev_node e) else ∅.
Proof.
  unfold written_nodes. simpl.
  destruct (is_state_change e || is_matched e); [|done].
  destruct (ev_node e); simpl; set_solver.
Qed.

Lemma apply_event_dom st e :
  dom (node_states (apply_event st e))
  = dom (node_states st) ∪ written_nodes [e].
Proof.
  rewrite written_nodes_one.
  destruct (event_cases e)
    as [(n & s & Ht & Hn & Hs)|[(a & b & Ht & Ha & Hb)|
        [(n & p & Ht & Hn & Hp)|[Hi|(H1 & H2 & H3)]]]].
  - rewrite (apply_event_state_change _ _ n s) by done.
    destruct (kind_of_state_change e n s) as (-> & _ & ->); [done..|].
    rewrite Hn. simpl. rewrite dom_insert_L. set_solver.
  - rewrite (apply_event_message_sent _ _ a b) by done.
    destruct (kind_of_message_sent e a b) as (-> & _ & ->); [done..|].
    simpl. set_solver.
  - rewrite (apply_event_matched _ _ n p) by done.
    destruct (kind_of_matched e n p) as (-> & _ & ->); [done..|].
    rewrite Hn. simpl. rewrite dom_insert_L. set_solver.
  - rewrite apply_event_incomplete by done.
    destruct (kind_of_incomplete e) as (-> & _ & ->); [done|].
    simpl. set_solver.
  - rewrite apply_event_other by done.
    destruct (kind_of_other e) as (-> & _ & ->); [done..|].
    simpl. set_solver.
Qed.

Lemma apply_events_dom st frame :
  dom (node_states (foldl apply_event st frame))
  = dom (node_states st) ∪ written_nodes frame.
Proof.
  revert st. induction frame as [|e r IH]; intros st; simpl.
  - unfold written_nodes. simpl. set_solver.
  - rewrite IH, apply_event_dom, (written_nodes_cons e r). set_solver.
Qed.

(** Each counter grows by one exactly on the events of its kind that have
    their fields. *)
Lemma apply_event_counters st e :
  state_changes_count (apply_event st e)
    = (state_changes_count st + count is_state_change [e])%nat ∧
  message_count (apply_event st e)
    = (message_count st + count is_message_sent [e])%nat ∧
  match_count (apply_event st e)
    = (match_count st + count is_matched [e])%nat.
Proof.
  unfold count. cbn [List.filter].
  destruct (event_cases e)
    as [(n & s & Ht & Hn & Hs)|[(a & b & Ht & Ha & Hb)|
        [(n & p & Ht & Hn & Hp)|[Hi|(H1 & H2 & H3)]]]].
  - rewrite (apply_event_state_change _ _ n s) by done.
    destruct (kind_of_state_change e n s) as (-> & -> & ->); [done..|].
    simpl. lia.
  - rewrite (apply_event_message_sent _ _ a b) by done.
    destruct (kind_of_message_sent e a b) as (-> & -> & ->); [done..|].
    simpl. lia.
  - rewrite (apply_event_matched _ _ n p) by done.
    destruct (kind_of_matched e n p) as (-> & -> & ->); [done..|].
    simpl. lia.
  - rewrite apply_event_incomplete by done.
    destruct (kind_of_incomplete e) as (-> & -> & ->); [done|].
    simpl. lia.
  - rewrite apply_event_other by done.
    destruct (kind_of_other e) as (-> & -> & ->); [done..|].
    simpl. lia.
Qed.

Lemma count_cons (p : event → bool) e frame :
  count p (e :: frame) = (count p [e] + count p frame)%nat.
Proof. unfold count. simpl. by destruct (p e). Qed.

Lemma apply_events_counters st frame :
  state_changes_count (foldl apply_event st frame)
    = (state_changes_count st + count is_state_change frame)%nat ∧
  message_count (foldl apply_event st frame)
    = (message_count st + count is_message_sent frame)%nat ∧
  match_count (foldl apply_event st frame)
    = (match_count st + count is_matched frame)%nat.
Proof.
  revert st. induction frame as [|e r IH]; intros st; simpl.
  - unfold count. simpl. lia.
  - destruct (IH (apply_event st e)) as (-> & -> & ->).
    destruct (apply_event_counters st e) as (-> & -> & ->).
    rewrite !(count_cons _ e r). lia.
Qed.

(** [update_frame] never touches the graph or the frames. *)
Lemma update_frame_frames self i :
  self_frames (update_frame self i).1 = self_frames self ∧
  self_graph (update_frame self i).1 = self_graph self.
Proof. unfold update_frame. by destruct (self_frames self !! i). Qed.

Lemma replay_frames self idxs :
  self_frames (replay self idxs) = self_frames self ∧
  self_graph (replay self idxs) = self_graph self.
Proof.
  revert self. induction idxs as [|i r IH]; intros self; [done|].
  unfold replay in *. simpl.
  destruct (IH (update_frame self i).1) as [-> ->].
  apply update_frame_frames.
Qed.

Lemma update_frame_matched_edges self i :
  self_matched_edges self ⊆ self_matched_edges (update_frame self i).1.
Proof.
  unfold update_frame. destruct (self_frames self !! i) as [frame|]; [|done].
  simpl. apply (apply_events_matched_edges (enter_frame self)).
Qed.

Lemma replay_matched_edges self idxs :
  self_matched_edges self ⊆ self_matched_edges (replay self idxs).
Proof.
  revert self. induction idxs as [|i r IH]; intros self; [done|].
  etrans; [apply (update_frame_matched_edges self i)|apply IH].
Qed.
End accumulation.

(** * The constructor *)

Section constructor.
Implicit Types (ns : list Z) (n : Z) (self : visualizer).

Lemma initial_node_states_from (m : gmap Z string) ns n :
  foldl (λ m node, <[node := "SINGLE"]> m) m ns !! n
  = if bool_decide (n ∈ ns) then Some "SINGLE" else m !! n.
Proof.
  revert m. induction ns as [|x r IH]; intros m; simpl; [done|].
  rewrite IH. destruct (decide (n ∈ r)) as [Hr|Hr].
  - rewrite !bool_decide_eq_true_2; [done|by right|done].
  - rewrite (bool_decide_eq_false_2 (n ∈ r)) by done.
    destruct (decide (n = x)) as [->|Hx].
    + rewrite bool_decide_eq_true_2 by left. by rewrite lookup_insert_eq.
    + rewrite bool_decide_eq_false_2, lookup_insert_ne; [done..|].
      by intros [?|?]%elem_of_cons.
Qed.

Lemma initial_node_states_lookup ns n :
  initial_node_states ns !! n
  = if bool_decide (n ∈ ns) then Some "SINGLE" else None.
Proof. unfold initial_node_states. by rewrite initial_node_states_from. Qed.

(** The first event decides between the three ways out of [__init__]. *)
Lemma init_not_INIT (e : event) (rest : list event) :
  ev_type e ≠ Some "INIT" →
  __init__ (e :: rest) = Raise (ValueError "First event must be INIT").
Proof. intros H. unfold __init__. by rewrite bool_decide_eq_false_2. Qed.

Lemma init_INIT (e : event) (rest : list event) :
  ev_type e = Some "INIT" →
  ∃ self, __init__ (e :: rest) = Ok self ∧
    self_node_states self = initial_node_states (nodes (self_graph self)) ∧
    self_matched_edges self = ∅ ∧
    self_frames self = group_events_by_time rest.
Proof.
  intros H. unfold __init__. rewrite bool_decide_eq_true_2 by done. eauto.
Qed.

Lemma init_node_states raw_events self :
  __init__ raw_events = Ok self →
  self_node_states self = initial_node_states (nodes (self_graph self)).
Proof.
  unfold __init__. destruct raw_events as [|e rest]; [done|].
  case_bool_decide; [|done]. by intros [= <-].
Qed.
End constructor.

(** * Claims about the state accumulated by [update_frame] *)

(** C2, as stated, fails: the log below has the topology nodes 1 and 2, and
    its only frame holds a state change of node 99.  After the constructor
    99 is no key of the node-state mapping; after the frame it is. *)
Lemma node_states_gain_a_key :
  ∃ self,
    __init__ [init_event_of [1; 2] [(1, 2)];
              state_change_event 10 99 "PROPOSER"] = Ok self ∧
    (99 ∉ nodes (self_graph self)) ∧
    self_node_states self !! 99 = None ∧
    self_node_states ((update_frame self 0).1) !! 99 = Some "PROPOSER".
Proof.
  eexists. split; [reflexivity|]. split_and!.
  - vm_compute. set_solver.
  - vm_compute. reflexivity.
  - vm_compute. reflexivity.
Qed.

(** C2, amended.  After the constructor the keys of the node-state mapping
    are the topology nodes, each with the state SINGLE.  A frame, or any
    sequence of frames, removes no key.  The keys after a frame are the keys
    before it and the nodes named by the frame's state changes and matches
    that have both fields; so a frame that names only nodes that are keys
    already leaves the key set as it is. *)
Theorem node_states_cover_the_topology :
  (∀ (raw_events : list event) (self : visualizer) (n : Z),
     __init__ raw_events = Ok self →
     (n ∈ dom (self_node_states self) ↔ n ∈ nodes (self_graph self)) ∧
     (n ∈ nodes (self_graph self) →
      (self_node_states self) !! n = Some "SINGLE")) ∧
  (∀ (self : visualizer) (i : nat),
     dom (self_node_states self)
     ⊆ dom (self_node_states ((update_frame self i).1))) ∧
  (∀ (self : visualizer) (idxs : list nat),
     dom (self_node_states self) ⊆ dom (self_node_states (replay self idxs))) ∧
  (∀ (self : visualizer) (i : nat) (frame : list event),
     self_frames self !! i = Some frame →
     dom (self_node_states ((update_frame self i).1))
     = dom (self_node_states self) ∪ written_nodes frame) ∧
  (∀ (self : visualizer) (i : nat) (frame : list event),
     self_frames self !! i = Some frame →
     written_nodes frame ⊆ dom (self_node_states self) →
     dom (self_node_states ((update_frame self i).1))
     = dom (self_node_states self)).
Proof.
  assert (∀ (self : visualizer) (i : nat) (frame : list event),
    self_frames self !! i = Some frame →
    dom (self_node_states ((update_frame self i).1))
    = dom (self_node_states self) ∪ written_nodes frame) as Hdom.
  { intros self i frame Hf. unfold update_frame. rewrite Hf. simpl.
    unfold apply_events. by rewrite apply_events_dom. }
  assert (∀ (self : visualizer) (i : nat),
    dom (self_node_states self)
    ⊆ dom (self_node_states ((update_frame self i).1))) as Hsub.
  { intros self i. destruct (self_frames self !! i) as [frame|] eqn:Hf.
    - rewrite (Hdom _ _ _ Hf). set_solver.
    - unfold update_frame. by rewrite Hf. }
  split_and!; [|done| |done|].
  - intros raw_events self n Hinit.
    rewrite (init_node_states _ _ Hinit), elem_of_dom,
      initial_node_states_lookup.
    case_bool_decide as Hn.
    + split; [split; [done|by eexists]|done].
    + split; [split; [by intros [? ?]|done]|done].
  - intros self idxs. revert self.
    induction idxs as [|i r IH]; intros self; [done|].
    etrans; [apply (Hsub self i)|apply IH].
  - intros self i frame Hf Hw. rewrite (Hdom _ _ _ Hf). set_solver.
Qed.

Lemma node_states_cover_the_topology_witness :
  let self :=
    {| self_graph := {| nodes := [1; 2]; edges := {[ (1, 2) ]} |};
       self_node_states := initial_node_states [1; 2];
       self_matched_edges := ∅;
       self_frames := [[state_change_event 10 2 "PROPOSER"]] |} in
  (2 ∈ dom (self_node_states self) ↔ 2 ∈ nodes (self_graph self)) ∧
  dom (self_node_states ((update_frame self 0).1))
  = dom (self_node_states self)
    ∪ written_nodes [state_change_event 10 2 "PROPOSER"] ∧
  dom (self_node_states ((update_frame self 0).1))
  = dom (self_node_states self).
Proof.
  intros self.
  destruct node_states_cover_the_topology as (Hinit & _ & _ & Hdom & Hsame).
  split; [|split].
  - apply (Hinit [init_event_of [1; 2] [(1, 2)];
                  state_change_event 10 2 "PROPOSER"] self 2).
    reflexivity.
  - apply Hdom. reflexivity.
  - apply (Hsame self 0%nat [state_change_event 10 2 "PROPOSER"]).
    + reflexivity.
    + apply (bool_decide_unpack _). vm_compute. exact I.
Defined.

Lemma sorted_pair_comm (a b : Z) : sorted_pair a b = sorted_pair b a.
Proof. unfold sorted_pair. by rewrite Z.min_comm, Z.max_comm. Qed.

(** C4. The matched-edge set only grows and re-insertion changes nothing:
    a frame, and any sequence of frames, leaves a set that includes the one
    before, so its size does not decrease; a match whose pair is in the set
    already leaves the set as it is; the pair is stored with the smaller node
    first, so a match of a with b and a match of b with a insert the same
    element, and the second of the two changes nothing. *)
Theorem matched_edges_only_grow :
  (∀ (self : visualizer) (i : nat),
     self_matched_edges self ⊆ self_matched_edges (update_frame self i).1 ∧
     (size (self_matched_edges self)
      ≤ size (self_matched_edges (update_frame self i).1))%nat) ∧
  (∀ (self : visualizer) (idxs : list nat),
     self_matched_edges self ⊆ self_matched_edges (replay self idxs) ∧
     (size (self_matched_edges self)
      ≤ size (self_matched_edges (replay self idxs)))%nat) ∧
  (∀ (st : loop_state) (e : event) (node partner : Z),
     ev_type e = Some "MATCHED" →
     ev_node e = Some node → ev_partner e = Some partner →
     sorted_pair node partner ∈ matched_edges st →
     matched_edges (apply_event st e) = matched_edges st) ∧
  (∀ a b : Z,
     sorted_pair a b = sorted_pair b a ∧
     (sorted_pair a b).1 ≤ (sorted_pair a b).2) ∧
  (∀ (st : loop_state) (e1 e2 : event) (a b : Z),
     ev_type e1 = Some "MATCHED" →
     ev_node e1 = Some a → ev_partner e1 = Some b →
     ev_type e2 = Some "MATCHED" →
     ev_node e2 = Some b → ev_partner e2 = Some a →
     matched_edges (apply_event st e2) = matched_edges (apply_event st e1) ∧
     matched_edges (apply_event (apply_event st e1) e2)
     = matched_edges (apply_event st e1)).
Proof.
  split_and!.
  - intros self i. pose proof (update_frame_matched_edges self i) as H.
    split; [done|]. by apply subseteq_size.
  - intros self idxs. pose proof (replay_matched_edges self idxs) as H.
    split; [done|]. by apply subseteq_size.
  - intros st e node partner Ht Hn Hp Hin.
    rewrite (apply_event_matched _ _ node partner) by done. simpl.
    case_bool_decide; set_solver.
  - intros a b. split; [apply sorted_pair_comm|].
    unfold sorted_pair. simpl. lia.
  - intros st e1 e2 a b Ht1 Hn1 Hp1 Ht2 Hn2 Hp2.
    rewrite (apply_event_matched _ e2 b a) by done.
    rewrite (apply_event_matched _ e2 b a) by done.
    rewrite (apply_event_matched _ e1 a b) by done. simpl.
    rewrite (sorted_pair_comm b a).
    destruct (decide (a = b)) as [->|Hab].
    + by rewrite !bool_decide_eq_false_2 by (intros ?; done).
    + rewrite !bool_decide_eq_true_2 by done. set_solver.
Qed.

Lemma matched_edges_only_grow_witness :
  let st :=
    {| node_states := ∅; matched_edges := {[ (3, 8) ]};
       active_messages := []; state_changes_count := 0;
       message_count := 0; match_count := 0 |} in
  matched_edges (apply_event st (matched_event 20 8 3)) = matched_edges st ∧
  matched_edges (apply_event st (matched_event 20 4 9))
  = matched_edges (apply_event st (matched_event 20 9 4)).
Proof.
  intros st.
  destruct matched_edges_only_grow as (_ & _ & Hidem & _ & Hsym).
  split.
  - apply (Hidem st (matched_event 20 8 3) 8 3); reflexivity.
  - apply (Hsym st (matched_event 20 9 4) (matched_event 20 4 9) 9 4);
      reflexivity.
Defined.

(** C5. A match of a node with itself, both fields present, sets the node's
    state to MATCHED and counts as a match, and adds no pair to the
    matched-edge set; nothing else changes. *)
Theorem self_match_adds_no_edge (st : loop_state) (e : event) (node : Z) :
  ev_type e = Some "MATCHED" →
  ev_node e = Some node → ev_partner e = Some node →
  node_states (apply_event st e) = <[node := "MATCHED"]> (node_states st) ∧
  node_states (apply_event st e) !! node = Some "MATCHED" ∧
  match_count (apply_event st e) = S (match_count st) ∧
  matched_edges (apply_event st e) = matched_edges st ∧
  active_messages (apply_event st e) = active_messages st ∧
  state_changes_count (apply_event st e) = state_changes_count st ∧
  message_count (apply_event st e) = message_count st.
Proof.
  intros Ht Hn Hp. rewrite (apply_event_matched _ _ node node) by done.
  simpl. rewrite lookup_insert_eq.
  by rewrite bool_decide_eq_false_2 by (intros ?; done).
Qed.

Lemma self_match_adds_no_edge_witness :
  let st :=
    {| node_states := {[ 6 := "PROPOSER" ]}; matched_edges := ∅;
       active_messages := []; state_changes_count := 0;
       message_count := 0; match_count := 0 |} in
  node_states (apply_event st (matched_event 30 6 6)) !! 6 = Some "MATCHED" ∧
  match_count (apply_event st (matched_event 30 6 6)) = 1%nat ∧
  matched_edges (apply_event st (matched_event 30 6 6)) = ∅.
Proof.
  intros st.
  destruct (self_match_adds_no_edge st (matched_event 30 6 6) 6)
    as (_ & Hs & Hc & Hm & _); try reflexivity.
  split; [exact Hs|]. split; [exact Hc|exact Hm].
Defined.

(** X20. Missing-field tolerance on typed events.  A state change without node
    or state, a message without sender or target and a match without node
    or partner leave the whole loop state as it is: node states, matched
    edges, the frame's messages and the three counters.  The loop goes on
    with the next event, so a frame gives what it gives without these
    events, and so does [update_frame], in the object it leaves and in what
    it draws or raises. *)
Theorem incomplete_events_are_skipped :
  (∀ (st : loop_state) (e : event),
     incomplete e = true → apply_event st e = st) ∧
  (∀ (st : loop_state) (before after : list event) (e : event),
     incomplete e = true →
     foldl apply_event st (before ++ e :: after)
     = foldl apply_event st (before ++ after)) ∧
  (∀ (st : loop_state) (frame : list event),
     foldl apply_event st frame
     = foldl apply_event st (List.filter (λ e, negb (incomplete e)) frame)) ∧
  (∀ (self : visualizer) (i : nat) (frame : list event),
     self_frames self !! i = Some frame →
     update_frame self i =
       (store self
          (apply_events self (List.filter (λ e, negb (incomplete e)) frame)),
        draw (self_graph self) i (length (self_frames self))
          (apply_events self
             (List.filter (λ e, negb (incomplete e)) frame)))).
Proof.
  split_and!.
  - apply apply_event_incomplete.
  - intros st before after e He.
    rewrite !foldl_app. simpl. by rewrite apply_event_incomplete.
  - apply apply_events_skip_incomplete.
  - intros self i frame Hf. unfold update_frame, apply_events. rewrite Hf.
    by rewrite <- apply_events_skip_incomplete.
Qed.

Lemma incomplete_events_are_skipped_witness :
  let st :=
    {| node_states := {[ 1 := "SINGLE" ]}; matched_edges := ∅;
       active_messages := []; state_changes_count := 0;
       message_count := 0; match_count := 0 |} in
  let self :=
    {| self_graph := {| nodes := [1]; edges := ∅ |};
       self_node_states := {[ 1 := "SINGLE" ]};
       self_matched_edges := ∅;
       self_frames := [[bare "MATCHED" (Some 4);
                        state_change_event 5 1 "LISTENER"]] |} in
  apply_event st (bare "STATE_CHANGE" (Some 3)) = st ∧
  apply_event st (bare "MSG_SENT" (Some 3)) = st ∧
  foldl apply_event st
    [bare "MATCHED" (Some 4); state_change_event 5 1 "LISTENER"]
  = foldl apply_event st [state_change_event 5 1 "LISTENER"] ∧
  update_frame self 0 =
    (store self (apply_events self [state_change_event 5 1 "LISTENER"]),
     draw (self_graph self) 0 1
       (apply_events self [state_change_event 5 1 "LISTENER"])).
Proof.
  intros st self.
  destruct incomplete_events_are_skipped as (Hone & Hmid & _ & Hframe).
  split; [|split; [|split]].
  - apply Hone. reflexivity.
  - apply Hone. reflexivity.
  - apply (Hmid st [] [state_change_event 5 1 "LISTENER"]). reflexivity.
  - apply (Hframe self 0%nat
      [bare "MATCHED" (Some 4); state_change_event 5 1 "LISTENER"]).
    reflexivity.
Defined.

(** The typed loop body is the JSON one wherever line 103 does not raise:
    on every event that is not a MSG_SENT event with a null ["msg"]. *)
Lemma apply_json_event_typed (st : loop_state) (e : json_event) :
  (js_type e = Some "MSG_SENT" → js_msg e ≠ MsgNull) →
  apply_json_event st e = Ok (apply_event st (typed e)).
Proof.
  intros Hnull. unfold apply_json_event, apply_event, typed. simpl.
  case_bool_decide as H1.
  { by destruct (js_node e), (js_state e). }
  case_bool_decide as H2.
  { specialize (Hnull H2).
    destruct (js_msg e) as [| |m]; [done..|]. simpl. unfold record_message.
    by destruct (msg_sender m), (msg_target m). }
  case_bool_decide as H3; [|done].
  by destruct (js_node e), (js_partner e).
Qed.

(** C6: what the loop does on a MSG_SENT event whose ["msg"] is null.  The
    event lacks sender and target; it is not skipped: line 103 raises
    [AttributeError], and the events after it in the frame are not
    applied. *)
Theorem null_msg_raises_AttributeError (st : loop_state) :
  apply_json_event st (json_bare "MSG_SENT" (Some 5) MsgNull)
  = Raise (AttributeError "'NoneType' object has no attribute 'get'") ∧
  apply_json_event st (json_bare "MSG_SENT" (Some 5) MsgAbsent) = Ok st ∧
  apply_json_events st
    [json_bare "MSG_SENT" (Some 5) MsgNull;
     json_state_change 6 1 "PROPOSER"]
  = (st, Some (AttributeError "'NoneType' object has no attribute 'get'")) ∧
  apply_json_events st
    [json_bare "MSG_SENT" (Some 5) MsgAbsent;
     json_state_change 6 1 "PROPOSER"]
  = (apply_event st (state_change_event 6 1 "PROPOSER"), None).
Proof. split_and!; reflexivity. Qed.

(** C7. The three counters are those of the frame: whatever frames were
    applied before, after the loop they are the numbers of the frame's state
    changes, messages and matches that have their fields, and these are the
    numbers in the title of the scene drawn for the frame. *)
Theorem counters_are_frame_scoped
    (self : visualizer) (idxs : list nat) (i : nat) (frame : list event) :
  self_frames self !! i = Some frame →
  (state_changes_count (apply_events (replay self idxs) frame)
     = count is_state_change frame ∧
   message_count (apply_events (replay self idxs) frame)
     = count is_message_sent frame ∧
   match_count (apply_events (replay self idxs) frame)
     = count is_matched frame) ∧
  (∀ s : scene,
     (update_frame (replay self idxs) i).2 = Drawn s →
     title_updates (scene_title s) = count is_state_change frame ∧
     title_msgs (scene_title s) = count is_message_sent frame ∧
     title_matches (scene_title s) = count is_matched frame).
Proof.
  intros Hf.
  assert (∀ v : visualizer,
    state_changes_count (apply_events v frame) = count is_state_change frame ∧
    message_count (apply_events v frame) = count is_message_sent frame ∧
    match_count (apply_events v frame) = count is_matched frame) as Hc.
  { intros v. unfold apply_events.
    destruct (apply_events_counters (enter_frame v) frame) as (-> & -> & ->).
    done. }
  split; [apply Hc|].
  intros s. unfold update_frame.
  rewrite (proj1 (replay_frames self idxs)), Hf. simpl. unfold draw.
  destruct (forallb (edge_has_position _) _); [|done].
  destruct (mapM _ _) as [colors|]; [|done].
  destruct (forallb _ _); [|done].
  intros [= <-]. simpl. apply Hc.
Qed.

Lemma counters_are_frame_scoped_witness :
  let self :=
    {| self_graph := {| nodes := [1; 2]; edges := ∅ |};
       self_node_states := initial_node_states [1; 2];
       self_matched_edges := ∅;
       self_frames := [[state_change_event 1 1 "PROPOSER";
                        matched_event 2 1 2];
                       [matched_event 200000000 2 1;
                        bare "MATCHED" (Some 200000001)]] |} in
  match_count (apply_events (replay self [0%nat]) 
    [matched_event 200000000 2 1; bare "MATCHED" (Some 200000001)]) = 1%nat.
Proof.
  intros self.
  apply (counters_are_frame_scoped self [0%nat] 1
    [matched_event 200000000 2 1; bare "MATCHED" (Some 200000001)]).
  reflexivity.
Defined.

(** C8: what the constructor does on an empty log and on a log whose first
    event is not INIT.  The first is the [IndexError] of [pop(0)], not the
    error of the INIT test of lines 29-30. *)
Theorem empty_log_raises_IndexError :
  __init__ [] = Raise (IndexError "pop from empty list") ∧
  __init__ [] ≠ Raise (ValueError "First event must be INIT") ∧
  __init__ [state_change_event 10 1 "PROPOSER"]
  = Raise (ValueError "First event must be INIT").
Proof. split_and!; done. Qed.

(** The color table has an entry for the four state names and no other. *)
Lemma STATE_COLORS_known (s : string) :
  STATE_COLORS !! s = None ↔ ¬ known_state s.
Proof.
  unfold known_state. split.
  - intros H [ -> | [ -> | [ -> | -> ] ] ]; vm_compute in H; discriminate.
  - intros H. unfold STATE_COLORS. apply not_elem_of_list_to_map_1. simpl.
    intros Hin. apply H.
    repeat (apply elem_of_cons in Hin as [->|Hin]; [tauto|]).
    by apply elem_of_nil in Hin.
Qed.

(** What the loop and the drawing part read of the node states. *)
Section locality.
Implicit Types (st : loop_state) (e : event) (frame : list event).
Variable P : Z → Prop.

Lemma apply_event_agree st1 st2 e :
  (∀ n, P n → node_states st1 !! n = node_states st2 !! n) →
  matched_edges st1 = matched_edges st2 →
  active_messages st1 = active_messages st2 →
  state_changes_count st1 = state_changes_count st2 →
  message_count st1 = message_count st2 →
  match_count st1 = match_count st2 →
  (∀ n, P n → node_states (apply_event st1 e) !! n
              = node_states (apply_event st2 e) !! n) ∧
  matched_edges (apply_event st1 e) = matched_edges (apply_event st2 e) ∧
  active_messages (apply_event st1 e) = active_messages (apply_event st2 e) ∧
  state_changes_count (apply_event st1 e)
    = state_changes_count (apply_event st2 e) ∧
  message_count (apply_event st1 e) = message_count (apply_event st2 e) ∧
  match_count (apply_event st1 e) = match_count (apply_event st2 e).
Proof.
  intros Hn Hm Ha Hc1 Hc2 Hc3.
  destruct (event_cases e)
    as [(n & s & Ht & Hnode & Hs)|[(a & b & Ht & Hsnd & Htgt)|
        [(n & p & Ht & Hnode & Hp)|[Hi|(H1 & H2 & H3)]]]].
  - rewrite !(apply_event_state_change _ _ n s) by done. simpl.
    rewrite Hm, Ha, Hc1, Hc2, Hc3. split_and!; try done.
    intros m Hpm. destruct (decide (n = m)) as [->|Hne].
    + by rewrite !lookup_insert_eq.
    + rewrite !lookup_insert_ne by done. by apply Hn.
  - rewrite !(apply_event_message_sent _ _ a b) by done. simpl.
    rewrite Hm, Ha, Hc1, Hc2, Hc3. by split_and!.
  - rewrite !(apply_event_matched _ _ n p) by done. simpl.
    rewrite Hm, Ha, Hc1, Hc2, Hc3. split_and!; try done.
    intros m Hpm. destruct (decide (n = m)) as [->|Hne].
    + by rewrite !lookup_insert_eq.
    + rewrite !lookup_insert_ne by done. by apply Hn.
  - by rewrite !apply_event_incomplete.
  - by rewrite !apply_event_other.
Qed.

Lemma apply_events_agree st1 st2 frame :
  (∀ n, P n → node_states st1 !! n = node_states st2 !! n) →
  matched_edges st1 = matched_edges st2 →
  active_messages st1 = active_messages st2 →
  state_changes_count st1 = state_changes_count st2 →
  message_count st1 = message_count st2 →
  match_count st1 = match_count st2 →
  (∀ n, P n → node_states (foldl apply_event st1 frame) !! n
              = node_states (foldl apply_event st2 frame) !! n) ∧
  matched_edges (foldl apply_event st1 frame)
    = matched_edges (foldl apply_event st2 frame) ∧
  active_messages (foldl apply_event st1 frame)
    = active_messages (foldl apply_event st2 frame) ∧
  state_changes_count (foldl apply_event st1 frame)
    = state_changes_count (foldl apply_event st2 frame) ∧
  message_count (foldl apply_event st1 frame)
    = message_count (foldl apply_event st2 frame) ∧
  match_count (foldl apply_event st1 frame)
    = match_count (foldl apply_event st2 frame).
Proof.
  revert st1 st2.
  induction frame as [|e r IH]; intros st1 st2 Hn Hm Ha Hc1 Hc2 Hc3; simpl.
  - done.
  - destruct (apply_event_agree st1 st2 e) as (? & ? & ? & ? & ? & ?);
      [done..|].
    by apply IH.
Qed.
End locality.

Lemma mapM_ext_elem {A B} (f h : A → option B) (l : list A) :
  (∀ x, x ∈ l → f x = h x) → mapM f l = mapM h l.
Proof.
  induction l as [|x r IH]; intros Hfh; [done|]. csimpl.
  rewrite (Hfh x) by left. destruct (h x) as [y|]; [|done]. csimpl.
  f_equal. apply IH. intros z Hz. apply Hfh. by right.
Qed.

(** [draw] reads the node states at the nodes of the graph only. *)
Lemma draw_agree (g : graph) (i total : nat) (st1 st2 : loop_state) :
  (∀ n, n ∈ nodes g → node_states st1 !! n = node_states st2 !! n) →
  matched_edges st1 = matched_edges st2 →
  active_messages st1 = active_messages st2 →
  state_changes_count st1 = state_changes_count st2 →
  message_count st1 = message_count st2 →
  match_count st1 = match_count st2 →
  draw g i total st1 = draw g i total st2.
Proof.
  intros Hn Hm Ha Hc1 Hc2 Hc3. unfold draw.
  rewrite Hm, Ha, Hc1, Hc2, Hc3.
  rewrite (mapM_ext_elem (node_color (node_states st1))
             (node_color (node_states st2))); [done|].
  intros n Hin. unfold node_color. by rewrite Hn.
Qed.

(** C9 as stated fails.  The topology below has the one node 1.  A state
    change of node 2 to a state named BOGUS is stored and the frame is drawn
    without an error.  The same state change for node 1 is stored as well;
    there line 128 raises [KeyError], after the state is in the mapping. *)
Lemma unknown_state_is_stored :
  ¬ known_state "BOGUS" ∧
  (∃ self sc,
     __init__ [init_event_of [1] []; state_change_event 5 2 "BOGUS"]
       = Ok self ∧
     (update_frame self 0).2 = Drawn sc ∧
     self_node_states ((update_frame self 0).1) !! 2 = Some "BOGUS") ∧
  (∃ self,
     __init__ [init_event_of [1] []; state_change_event 5 1 "BOGUS"]
       = Ok self ∧
     (update_frame self 0).2 = Raised KeyError ∧
     self_node_states ((update_frame self 0).1) !! 1 = Some "BOGUS").
Proof.
  split_and!.
  - apply STATE_COLORS_known. reflexivity.
  - eexists _, _. split; [reflexivity|]. split; vm_compute; reflexivity.
  - eexists. split; [reflexivity|]. split; vm_compute; reflexivity.
Qed.

(** C9, amended.  The loop stores the state of a state change as it comes,
    whatever the string.  A state outside the four known ones is an error
    only through the colour lookup when a frame is drawn: if after the
    frame's events a topology node has such a state, [update_frame] raises
    [KeyError] and the mapping keeps the state.  The states of keys that are
    not topology nodes are never looked up: two objects that differ only in
    such states get the same scene or the same error from [update_frame]. *)
Theorem unknown_state_fails_only_when_drawn :
  (∀ (st : loop_state) (e : event) (node : Z) (state : string),
     ev_type e = Some "STATE_CHANGE" →
     ev_node e = Some node → ev_state e = Some state →
     node_states (apply_event st e) !! node = Some state) ∧
  (∀ s : string, STATE_COLORS !! s = None ↔ ¬ known_state s) ∧
  (∀ (self : visualizer) (i : nat) (frame : list event) (n : Z) (s : string),
     self_frames self !! i = Some frame →
     n ∈ nodes (self_graph self) →
     node_states (apply_events self frame) !! n = Some s →
     ¬ known_state s →
     (update_frame self i).2 = Raised KeyError ∧
     self_node_states ((update_frame self i).1) !! n = Some s) ∧
  (∀ (self1 self2 : visualizer) (i : nat),
     self_graph self1 = self_graph self2 →
     self_frames self1 = self_frames self2 →
     self_matched_edges self1 = self_matched_edges self2 →
     (∀ n, n ∈ nodes (self_graph self1) →
        self_node_states self1 !! n = self_node_states self2 !! n) →
     (update_frame self1 i).2 = (update_frame self2 i).2).
Proof.
  split_and!.
  - intros st e node state Ht Hn Hs.
    rewrite (apply_event_state_change _ _ node state) by done.
    simpl. apply lookup_insert_eq.
  - apply STATE_COLORS_known.
  - intros self i frame n s Hf Hn Hs Hk.
    unfold update_frame. rewrite Hf. simpl. split; [|done].
    unfold draw. destruct (forallb (edge_has_position _) _); [|done].
    rewrite (mapM_None_2 (node_color (node_states (apply_events self frame)))
               (nodes (self_graph self))); [done|].
    apply Exists_exists. exists n. split; [done|].
    unfold node_color. rewrite Hs. simpl. by apply STATE_COLORS_known.
  - intros self1 self2 i Hg Hfr Hm Hn. unfold update_frame.
    rewrite <- Hfr, <- Hg.
    destruct (self_frames self1 !! i) as [frame|]; [|done]. simpl.
    destruct (apply_events_agree (λ n, n ∈ nodes (self_graph self1))
                (enter_frame self1) (enter_frame self2) frame)
      as (? & ? & ? & ? & ? & ?); [done..|].
    by apply draw_agree.
Qed.

Lemma unknown_state_fails_only_when_drawn_witness :
  let st :=
    {| node_states := {[ 1 := "SINGLE" ]}; matched_edges := ∅;
       active_messages := []; state_changes_count := 0;
       message_count := 0; match_count := 0 |} in
  let self :=
    {| self_graph := {| nodes := [1]; edges := ∅ |};
       self_node_states := initial_node_states [1];
       self_matched_edges := ∅;
       self_frames := [[state_change_event 5 1 "BOGUS"]] |} in
  let self2 :=
    {| self_graph := {| nodes := [1]; edges := ∅ |};
       self_node_states := <[2 := "BOGUS"]> (initial_node_states [1]);
       self_matched_edges := ∅;
       self_frames := [[state_change_event 5 1 "BOGUS"]] |} in
  node_states (apply_event st (state_change_event 5 1 "BOGUS")) !! 1
    = Some "BOGUS" ∧
  ((update_frame self 0).2 = Raised KeyError ∧
   self_node_states ((update_frame self 0).1) !! 1 = Some "BOGUS") ∧
  (update_frame self 0).2 = (update_frame self2 0).2.
Proof.
  intros st self self2.
  destruct unknown_state_fails_only_when_drawn
    as (Hstore & Hcol & Hraise & Hsame).
  split; [|split].
  - apply (Hstore st (state_change_event 5 1 "BOGUS") 1 "BOGUS");
      reflexivity.
  - apply (Hraise self 0%nat [state_change_event 5 1 "BOGUS"] 1 "BOGUS").
    + reflexivity.
    + apply list_elem_of_here.
    + vm_compute. reflexivity.
    + apply Hcol. reflexivity.
  - apply (Hsame self self2 0%nat); try reflexivity.
    intros n Hn. apply list_elem_of_singleton in Hn. rewrite Hn.
    vm_compute. reflexivity.
Defined.

(** * Further properties of [group_events_by_time] *)

Section more_batching.
Variable w : Z.
Hypothesis w_nonneg : 0 ≤ w.
Implicit Types (e x y a : event) (l cur f g events : list event).

Lemma frames_from_length l cur anchor :
  (length (frames_from w cur anchor l) ≤ S (length l))%nat.
Proof.
  revert cur anchor. induction l as [|e r IH]; intros cur anchor; simpl; [lia|].
  destruct (timestamp e - anchor <=? w); simpl.
  - specialize (IH (cur ++ [e]) anchor). lia.
  - specialize (IH [e] (timestamp e)). lia.
Qed.

(** Events of an earlier frame are strictly earlier than events of a later
    frame. *)
Lemma frames_from_separated l cur anchor i j f g x y :
  batch_inv w cur anchor l →
  (i < j)%nat →
  frames_from w cur anchor l !! i = Some f →
  frames_from w cur anchor l !! j = Some g →
  x ∈ f → y ∈ g →
  timestamp x < timestamp y.
Proof.
  revert cur anchor i j.
  induction l as [|e r IH]; intros cur anchor i j Hinv Hij Hf Hg Hx Hy;
    simpl in Hf, Hg.
  - destruct j as [|j]; [lia|]. by destruct j.
  - destruct (Z.leb_spec (timestamp e - anchor) w) as [Hle|Hgt].
    + eapply (IH _ _ i j); [by apply batch_inv_within|done..].
    + destruct j as [|j]; [lia|]. simpl in Hg.
      destruct i as [|i]; simpl in Hf.
      * injection Hf as <-.
        pose proof Hinv as (_ & Hcur & Hs & _).
        apply StronglySorted_inv in Hs as [_ He].
        rewrite Forall_forall in Hcur. specialize (Hcur _ Hx).
        assert (y ∈ [e] ++ r) as Hyr.
        { eapply frames_from_elem; [|done].
          by eapply list_elem_of_lookup_2. }
        apply elem_of_cons in Hyr as [->|Hyr]; [lia|].
        rewrite Forall_forall in He. specialize (He _ Hyr).
        unfold ts_le in He. simpl in *. lia.
      * eapply (IH _ _ i j); [by eapply batch_inv_beyond|lia|done..].
Qed.

Lemma group_events_by_time_with_separated events i j f g x y :
  (i < j)%nat →
  group_events_by_time_with w events !! i = Some f →
  group_events_by_time_with w events !! j = Some g →
  x ∈ f → y ∈ g →
  timestamp x < timestamp y.
Proof.
  destruct (group_events_by_time_with_cases w w_nonneg events)
    as [[-> ->]|(s0 & srest & Hs & -> & Hinv)]; [done|].
  intros. by eapply frames_from_separated.
Qed.

Lemma group_events_by_time_with_length events :
  (length (group_events_by_time_with w events) ≤ length events)%nat.
Proof.
  destruct (group_events_by_time_with_cases w w_nonneg events)
    as [[-> ->]|(s0 & srest & Hs & -> & Hinv)]; [done|].
  pose proof (frames_from_length srest [s0] (timestamp s0)) as Hl.
  pose proof (Permutation_length (sort_by_timestamp_perm events)) as Hp.
  rewrite Hs in Hp. simpl in Hp. lia.
Qed.

Lemma group_events_by_time_with_span events f x y :
  f ∈ group_events_by_time_with w events → x ∈ f → y ∈ f →
  timestamp y - timestamp x ≤ w.
Proof.
  intros Hf Hx Hy.
  pose proof (group_events_by_time_with_within w w_nonneg events) as Hw.
  rewrite Forall_forall in Hw. destruct (Hw f Hf) as (a & rest & -> & Hall).
  rewrite Forall_forall in Hall.
  pose proof (Hall _ Hx). pose proof (Hall _ Hy). simpl in *. lia.
Qed.

(** The frames depend on the log through its sorted form only. *)
Lemma group_events_by_time_with_sorted events :
  group_events_by_time_with w (sort_by_timestamp events)
  = group_events_by_time_with w events.
Proof.
  destruct (group_events_by_time_with_cases w w_nonneg events)
    as [[-> ->]|(s0 & srest & Hs & Hg & Hinv)]; [done|].
  rewrite Hg, Hs.
  apply group_events_by_time_with_frames; [done|].
  rewrite <- Hs. apply sort_by_timestamp_id, sort_by_timestamp_sorted.
Qed.

Lemma group_events_by_time_with_single events :
  events ≠ [] →
  (∀ x y, x ∈ events → y ∈ events → timestamp y - timestamp x ≤ w) →
  group_events_by_time_with w events = [sort_by_timestamp events].
Proof.
  intros Hne Hall.
  destruct (group_events_by_time_with_cases w w_nonneg events)
    as [[-> ->]|(s0 & srest & Hs & -> & Hinv)]; [done|].
  rewrite Hs, frames_from_single; [done|].
  apply Forall_forall. intros x Hx.
  apply Hall; apply sort_by_timestamp_elem; rewrite Hs.
  - apply list_elem_of_here.
  - by apply list_elem_of_further.
Qed.
End more_batching.

(** X1. The frames hold every event of the log once: joined, they are a
    permutation of the log.  No frame is empty, there are at most as many
    frames as events, and there is no frame only when there is no event. *)
Theorem frames_partition_the_log (events : list event) :
  concat (group_events_by_time events) ≡ₚ events ∧
  Forall (λ f, f ≠ []) (group_events_by_time events) ∧
  (length (group_events_by_time events) ≤ length events)%nat ∧
  (group_events_by_time events = [] ↔ events = []).
Proof.
  unfold group_events_by_time. split_and!.
  - rewrite (group_events_by_time_with_concat _ TIME_WINDOW_NS_nonneg).
    apply sort_by_timestamp_perm.
  - eapply Forall_impl;
      [apply (group_events_by_time_with_within _ TIME_WINDOW_NS_nonneg)|].
    by intros f (a & rest & -> & _).
  - apply group_events_by_time_with_length, TIME_WINDOW_NS_nonneg.
  - split; [|by intros ->].
    intros Hg.
    pose proof (group_events_by_time_with_concat _ TIME_WINDOW_NS_nonneg events)
      as Hc.
    rewrite Hg in Hc. simpl in Hc.
    apply Permutation_nil. rewrite Hc. apply sort_by_timestamp_perm.
Qed.

Lemma frames_partition_the_log_witness :
  group_events_by_time [] = [] ↔ @nil event = [].
Proof. apply (frames_partition_the_log []). Defined.

(** X2. Ties keep their input order: for every timestamp, the events with
    that timestamp come in the frames in the order they have in the log. *)
Theorem ties_keep_input_order (events : list event) (k : Z) :
  List.filter (λ x, timestamp x =? k) (concat (group_events_by_time events))
  = List.filter (λ x, timestamp x =? k) events.
Proof.
  unfold group_events_by_time.
  rewrite (group_events_by_time_with_concat _ TIME_WINDOW_NS_nonneg).
  apply sort_by_timestamp_stable.
Qed.

(** X3. Frames are ordered in time and do not overlap: an event of an
    earlier frame has a strictly smaller timestamp than an event of a later
    frame. *)
Theorem frames_are_time_ordered
    (events f g : list event) (i j : nat) (x y : event) :
  (i < j)%nat →
  group_events_by_time events !! i = Some f →
  group_events_by_time events !! j = Some g →
  x ∈ f → y ∈ g →
  timestamp x < timestamp y.
Proof.
  apply group_events_by_time_with_separated, TIME_WINDOW_NS_nonneg.
Qed.

Lemma frames_are_time_ordered_witness :
  timestamp (bare "MSG_SENT" (Some 3))
  < timestamp (bare "MATCHED" (Some 100000004)).
Proof.
  apply (frames_are_time_ordered
    [bare "MATCHED" (Some 100000004); bare "MSG_SENT" (Some 3)]
    [bare "MSG_SENT" (Some 3)] [bare "MATCHED" (Some 100000004)] 0 1).
  - lia.
  - reflexivity.
  - reflexivity.
  - apply list_elem_of_here.
  - apply list_elem_of_here.
Defined.

(** X4. A frame spans at most the window: two events of one frame are at
    most [TIME_WINDOW_NS] apart. *)
Theorem frame_spans_at_most_the_window
    (events f : list event) (x y : event) :
  f ∈ group_events_by_time events → x ∈ f → y ∈ f →
  timestamp y - timestamp x ≤ TIME_WINDOW_NS.
Proof.
  apply group_events_by_time_with_span, TIME_WINDOW_NS_nonneg.
Qed.

Lemma frame_spans_at_most_the_window_witness :
  timestamp (bare "MATCHED" (Some 100000003))
  - timestamp (bare "MSG_SENT" (Some 3)) ≤ TIME_WINDOW_NS.
Proof.
  apply (frame_spans_at_most_the_window
    [bare "MATCHED" (Some 100000003); bare "MSG_SENT" (Some 3)]
    [bare "MSG_SENT" (Some 3); bare "MATCHED" (Some 100000003)]).
  - vm_compute. apply list_elem_of_here.
  - apply list_elem_of_here.
  - apply list_elem_of_further, list_elem_of_here.
Defined.

(** X5. Batching again changes nothing: the frames of the joined frames are
    the frames, and two logs with the same sorted form have the same
    frames. *)
Theorem batching_is_idempotent :
  (∀ events : list event,
     group_events_by_time (concat (group_events_by_time events))
     = group_events_by_time events) ∧
  (∀ events1 events2 : list event,
     sort_by_timestamp events1 = sort_by_timestamp events2 →
     group_events_by_time events1 = group_events_by_time events2).
Proof.
  unfold group_events_by_time. split.
  - intros events.
    rewrite (group_events_by_time_with_concat _ TIME_WINDOW_NS_nonneg).
    apply group_events_by_time_with_sorted, TIME_WINDOW_NS_nonneg.
  - intros events1 events2 Hs.
    rewrite <- (group_events_by_time_with_sorted _ TIME_WINDOW_NS_nonneg
                  events1), Hs.
    apply group_events_by_time_with_sorted, TIME_WINDOW_NS_nonneg.
Qed.

Lemma batching_is_idempotent_witness :
  group_events_by_time
    [bare "MATCHED" (Some 9); bare "MSG_SENT" (Some 3)]
  = group_events_by_time
    [bare "MSG_SENT" (Some 3); bare "MATCHED" (Some 9)].
Proof. apply (proj2 batching_is_idempotent). reflexivity. Defined.

(** X6. A log gives exactly one frame when, and only when, it is not empty
    and no two of its events are more than the window apart; the frame is
    then the sorted log. *)
Theorem one_frame_iff_within_one_window (events : list event) :
  (events ≠ [] ∧
   ∀ x y, x ∈ events → y ∈ events →
     timestamp y - timestamp x ≤ TIME_WINDOW_NS)
  ↔ group_events_by_time events = [sort_by_timestamp events].
Proof.
  unfold group_events_by_time. split.
  - intros [Hne Hall].
    by apply group_events_by_time_with_single;
      [apply TIME_WINDOW_NS_nonneg|..].
  - intros Hg. split; [by intros ->|].
    intros x y Hx Hy.
    apply (group_events_by_time_with_span _ TIME_WINDOW_NS_nonneg events
             (sort_by_timestamp events)).
    + rewrite Hg. apply list_elem_of_here.
    + by apply sort_by_timestamp_elem.
    + by apply sort_by_timestamp_elem.
Qed.

Lemma one_frame_iff_within_one_window_witness :
  [bare "MATCHED" (Some 9)] ≠ [] ∧
  ∀ x y, x ∈ [bare "MATCHED" (Some 9)] → y ∈ [bare "MATCHED" (Some 9)] →
    timestamp y - timestamp x ≤ TIME_WINDOW_NS.
Proof.
  apply (one_frame_iff_within_one_window [bare "MATCHED" (Some 9)]).
  reflexivity.
Defined.

(** X7. Batching reads nothing but the timestamps: two logs with the same
    list of timestamps get frames with the same timestamps, so the same
    number of frames of the same lengths. *)
Theorem batching_reads_only_timestamps (events1 events2 : list event) :
  timestamp <$> events1 = timestamp <$> events2 →
  fmap (M:=list) timestamp <$> group_events_by_time events1
  = fmap (M:=list) timestamp <$> group_events_by_time events2.
Proof.
  intros Hts.
  assert (∀ l : list event,
    fmap (M:=list) timestamp <$> group_events_by_time l
    = fmap (M:=list) timestamp
        <$> group_events_by_time (timestamp_only <$> l)) as Hred.
  { intros l. unfold group_events_by_time.
    rewrite (group_events_by_time_with_map _ timestamp_only) by done.
    rewrite <- list_fmap_compose. apply list_fmap_ext. intros _ f _.
    simpl. rewrite <- list_fmap_compose. by apply list_fmap_ext. }
  rewrite (Hred events1), (Hred events2). do 2 f_equal.
  assert (∀ l : list event,
    timestamp_only <$> l
    = (λ t, timestamp_only (bare "E" (Some t))) <$> (timestamp <$> l)) as Hto.
  { intros l. rewrite <- list_fmap_compose. by apply list_fmap_ext. }
  by rewrite (Hto events1), (Hto events2), Hts.
Qed.

Lemma batching_reads_only_timestamps_witness :
  fmap (M:=list) timestamp
    <$> group_events_by_time [bare "MATCHED" (Some 9); bare "INIT" None]
  = fmap (M:=list) timestamp
    <$> group_events_by_time [bare "MSG_SENT" (Some 9); bare "X" (Some 0)].
Proof. apply batching_reads_only_timestamps. reflexivity. Defined.

(** * Further properties of the event loop *)

Section more_accumulation.
Implicit Types (st : loop_state) (e : event) (frame : list event)
  (self : visualizer) (n : Z).

Lemma apply_event_irrelevant st e : relevant e = false → apply_event st e = st.
Proof.
  unfold relevant. intros Hr.
  destruct (event_cases e)
    as [(n & s & Ht & Hn & Hs)|[(a & b & Ht & Ha & Hb)|
        [(n & p & Ht & Hn & Hp)|[Hi|(H1 & H2 & H3)]]]].
  - destruct (kind_of_state_change e n s) as (H & _); [done..|].
    by rewrite H in Hr.
  - destruct (kind_of_message_sent e a b) as (_ & H & _); [done..|].
    rewrite H in Hr. by rewrite orb_true_r in Hr.
  - destruct (kind_of_matched e n p) as (_ & _ & H); [done..|].
    rewrite H in Hr. by rewrite orb_true_r in Hr.
  - by apply apply_event_incomplete.
  - by apply apply_event_other.
Qed.

Lemma apply_events_relevant st frame :
  foldl apply_event st frame
  = foldl apply_event st (List.filter relevant frame).
Proof.
  revert st. induction frame as [|e r IH]; intros st; simpl; [done|].
  destruct (relevant e) eqn:He; simpl; [apply IH|].
  by rewrite apply_event_irrelevant.
Qed.

(** A node the event does not write keeps its state. *)
Lemma apply_event_lookup_ne st e n :
  n ∉ written_nodes [e] →
  node_states (apply_event st e) !! n = node_states st !! n.
Proof.
  rewrite written_nodes_one.
  destruct (event_cases e)
    as [(n' & s & Ht & Hn & Hs)|[(a & b & Ht & Ha & Hb)|
        [(n' & p & Ht & Hn & Hp)|[Hi|(H1 & H2 & H3)]]]].
  - rewrite (apply_event_state_change _ _ n' s) by done.
    destruct (kind_of_state_change e n' s) as (-> & _ & _); [done..|].
    rewrite Hn. simpl. intros Hne. apply lookup_insert_ne. set_solver.
  - by rewrite (apply_event_message_sent _ _ a b).
  - rewrite (apply_event_matched _ _ n' p) by done.
    destruct (kind_of_matched e n' p) as (_ & _ & ->); [done..|].
    rewrite orb_true_r, Hn. simpl. intros Hne.
    apply lookup_insert_ne. set_solver.
  - by rewrite apply_event_incomplete.
  - by rewrite apply_event_other.
Qed.

Lemma apply_events_lookup_ne st frame n :
  n ∉ written_nodes frame →
  node_states (foldl apply_event st frame) !! n = node_states st !! n.
Proof.
  revert st. induction frame as [|e r IH]; intros st Hn; simpl; [done|].
  rewrite (written_nodes_cons e r) in Hn.
  rewrite IH by set_solver. apply apply_event_lookup_ne. set_solver.
Qed.

Lemma matched_pairs_cons e frame :
  matched_pairs (e :: frame) = matched_pairs [e] ∪ matched_pairs frame.
Proof.
  unfold matched_pairs. simpl. destruct (matched_pair e); simpl; set_solver.
Qed.

Lemma apply_event_matched_pairs st e :
  matched_edges (apply_event st e) = matched_edges st ∪ matched_pairs [e].
Proof.
  unfold matched_pairs, matched_pair. simpl.
  destruct (event_cases e)
    as [(n & s & Ht & Hn & Hs)|[(a & b & Ht & Ha & Hb)|
        [(n & p & Ht & Hn & Hp)|[Hi|(H1 & H2 & H3)]]]].
  - rewrite (apply_event_state_change _ _ n s) by done.
    destruct (kind_of_state_change e n s) as (_ & _ & ->); [done..|].
    simpl. set_solver.
  - rewrite (apply_event_message_sent _ _ a b) by done.
    destruct (kind_of_message_sent e a b) as (_ & _ & ->); [done..|].
    simpl. set_solver.
  - rewrite (apply_event_matched _ _ n p) by done.
    destruct (kind_of_matched e n p) as (_ & _ & ->); [done..|].
    rewrite Hn, Hp. simpl. case_bool_decide; simpl; set_solver.
  - rewrite apply_event_incomplete by done.
    destruct (kind_of_incomplete e) as (_ & _ & ->); [done|].
    simpl. set_solver.
  - rewrite apply_event_other by done.
    destruct (kind_of_other e) as (_ & _ & ->); [done..|].
    simpl. set_solver.
Qed.

Lemma apply_events_matched_pairs st frame :
  matched_edges (foldl apply_event st frame)
  = matched_edges st ∪ matched_pairs frame.
Proof.
  revert st. induction frame as [|e r IH]; intros st; simpl.
  - unfold matched_pairs. simpl. set_solver.
  - rewrite IH, apply_event_matched_pairs, (matched_pairs_cons e r).
    set_solver.
Qed.

(** A stored pair has the smaller node first and two different nodes. *)
Lemma matched_pair_ordered e p : matched_pair e = Some p → p.1 < p.2.
Proof.
  unfold matched_pair. destruct (is_matched e); [|done].
  destruct (ev_node e) as [n|]; [|done].
  destruct (ev_partner e) as [q|]; [|done].
  case_bool_decide; [|done]. intros [= <-]. unfold sorted_pair. simpl. lia.
Qed.

Lemma matched_pairs_ordered frame p : p ∈ matched_pairs frame → p.1 < p.2.
Proof.
  unfold matched_pairs. rewrite elem_of_list_to_set, list_elem_of_omap.
  intros (e & _ & He). by eapply matched_pair_ordered.
Qed.

Lemma apply_event_messages st e :
  active_messages (apply_event st e)
  = active_messages st ++ omap message_of [e].
Proof.
  unfold message_of. simpl.
  destruct (event_cases e)
    as [(n & s & Ht & Hn & Hs)|[(a & b & Ht & Ha & Hb)|
        [(n & p & Ht & Hn & Hp)|[Hi|(H1 & H2 & H3)]]]].
  - rewrite (apply_event_state_change _ _ n s) by done.
    destruct (kind_of_state_change e n s) as (_ & -> & _); [done..|].
    simpl. by rewrite app_nil_r.
  - rewrite (apply_event_message_sent _ _ a b) by done.
    destruct (kind_of_message_sent e a b) as (_ & -> & _); [done..|].
    by rewrite Ha, Hb.
  - rewrite (apply_event_matched _ _ n p) by done.
    destruct (kind_of_matched e n p) as (_ & -> & _); [done..|].
    simpl. by rewrite app_nil_r.
  - rewrite apply_event_incomplete by done.
    destruct (kind_of_incomplete e) as (_ & -> & _); [done|].
    simpl. by rewrite app_nil_r.
  - rewrite apply_event_other by done.
    destruct (kind_of_other e) as (_ & -> & _); [done..|].
    simpl. by rewrite app_nil_r.
Qed.

Lemma apply_events_messages st frame :
  active_messages (foldl apply_event st frame)
  = active_messages st ++ omap message_of frame.
Proof.
  revert st. induction frame as [|e r IH]; intros st; simpl.
  - by rewrite app_nil_r.
  - rewrite IH, apply_event_messages. simpl.
    destruct (message_of e); simpl; by rewrite <- ?app_assoc, ?app_nil_r.
Qed.
End more_accumulation.

(** * Further properties of the constructor *)

Section topology.
Implicit Types (g : graph) (n u : Z) (ns : list Z) (es : list (Z * Z)).

Lemma add_node_spec g n :
  (∀ u, u ∈ nodes (add_node g n) ↔ u ∈ nodes g ∨ u = n) ∧
  (NoDup (nodes g) → NoDup (nodes (add_node g n))).
Proof.
  unfold add_node. case_bool_decide as Hn; simpl.
  - split; [|done]. intros u. split; [by left|].
    by intros [?| ->].
  - split.
    + intros u. rewrite elem_of_app, list_elem_of_singleton. tauto.
    + intros Hnd. apply NoDup_app. split_and!; [done| |apply NoDup_singleton].
      intros u Hu ->%list_elem_of_singleton. done.
Qed.

Lemma add_nodes_from_spec g ns :
  (∀ u, u ∈ nodes (add_nodes_from g ns) ↔ u ∈ nodes g ∨ u ∈ ns) ∧
  (NoDup (nodes g) → NoDup (nodes (add_nodes_from g ns))).
Proof.
  unfold add_nodes_from. revert g.
  induction ns as [|n r IH]; intros g; simpl.
  - split; [|done]. intros u. rewrite elem_of_nil. tauto.
  - destruct (IH (add_node g n)) as (Hin & Hnd).
    destruct (add_node_spec g n) as (Hin1 & Hnd1).
    split.
    + intros u. rewrite Hin, Hin1, elem_of_cons. tauto.
    + intros ?. by apply Hnd, Hnd1.
Qed.

Lemma add_edge_spec g (uv : Z * Z) :
  (∀ u, u ∈ nodes (add_edge g uv) ↔ u ∈ nodes g ∨ u = uv.1 ∨ u = uv.2) ∧
  (NoDup (nodes g) → NoDup (nodes (add_edge g uv))).
Proof.
  unfold add_edge. simpl.
  destruct (add_node_spec g uv.1) as (Hin1 & Hnd1).
  destruct (add_node_spec (add_node g uv.1) uv.2) as (Hin2 & Hnd2).
  split.
  - intros u. rewrite Hin2, Hin1. tauto.
  - intros ?. by apply Hnd2, Hnd1.
Qed.

Lemma add_edges_from_spec g es :
  (∀ u, u ∈ nodes (add_edges_from g es) ↔ u ∈ nodes g ∨ u ∈ end_points es) ∧
  (NoDup (nodes g) → NoDup (nodes (add_edges_from g es))).
Proof.
  unfold add_edges_from. revert g.
  induction es as [|uv r IH]; intros g; simpl.
  - split; [|done].
    intros u. unfold end_points. simpl. rewrite elem_of_nil. tauto.
  - destruct (IH (add_edge g uv)) as (Hin & Hnd).
    destruct (add_edge_spec g uv) as (Hin1 & Hnd1).
    split.
    + intros u. rewrite Hin, Hin1. unfold end_points. simpl.
      rewrite !elem_of_cons. fold (end_points r). tauto.
    + intros ?. by apply Hnd, Hnd1.
Qed.

(** What [__init__] returns when it returns. *)
Lemma init_Ok_inv (raw_events : list event) (self : visualizer) :
  __init__ raw_events = Ok self →
  ∃ e rest,
    raw_events = e :: rest ∧ ev_type e = Some "INIT" ∧
    self_graph self
      = add_edges_from (add_nodes_from empty_graph (default [] (ev_nodes e)))
          (default [] (ev_edges e)) ∧
    self_node_states self = initial_node_states (nodes (self_graph self)) ∧
    self_matched_edges self = ∅ ∧
    self_frames self = group_events_by_time rest.
Proof.
  unfold __init__. destruct raw_events as [|e rest]; [done|].
  case_bool_decide as Ht; [|done]. intros [= <-]. by exists e, rest.
Qed.
End topology.

(** X8. The constructor returns an object exactly for a log that starts
    with an INIT event.  The object then has no matched edge, and its frames
    are the batches of the events after the first; the INIT event itself is
    in no frame. *)
Theorem constructor_needs_a_leading_INIT (raw_events : list event) :
  ((∃ self, __init__ raw_events = Ok self)
   ↔ ∃ e rest, raw_events = e :: rest ∧ ev_type e = Some "INIT") ∧
  (∀ self, __init__ raw_events = Ok self →
     self_matched_edges self = ∅ ∧
     self_frames self = group_events_by_time (tail raw_events) ∧
     concat (self_frames self) ≡ₚ tail raw_events).
Proof.
  split.
  - split.
    + intros [self (e & rest & -> & Ht & _)%init_Ok_inv]. eauto.
    + intros (e & rest & -> & Ht).
      destruct (init_INIT e rest Ht) as (self & Hs & _). eauto.
  - intros self (e & rest & -> & Ht & _ & _ & Hm & Hf)%init_Ok_inv.
    simpl. split_and!; [done..|]. rewrite Hf. unfold group_events_by_time.
    rewrite (group_events_by_time_with_concat _ TIME_WINDOW_NS_nonneg).
    apply sort_by_timestamp_perm.
Qed.

Lemma constructor_needs_a_leading_INIT_witness :
  ∃ self, __init__ [init_event_of [1] []; matched_event 3 1 1] = Ok self.
Proof.
  apply (constructor_needs_a_leading_INIT
           [init_event_of [1] []; matched_event 3 1 1]).
  exists (init_event_of [1] []), [matched_event 3 1 1]. split; reflexivity.
Defined.

(** X9. The topology nodes are the nodes the INIT event lists together with
    the end points of its edges, each once; an end point need not be listed
    as a node.  The node-state mapping has one entry per topology node. *)
Theorem topology_is_nodes_and_end_points
    (e : event) (rest : list event) (self : visualizer) :
  __init__ (e :: rest) = Ok self →
  (∀ n, n ∈ nodes (self_graph self)
        ↔ n ∈ default [] (ev_nodes e) ∨ n ∈ end_points (default [] (ev_edges e))) ∧
  NoDup (nodes (self_graph self)) ∧
  size (self_node_states self) = length (nodes (self_graph self)).
Proof.
  intros (e' & rest' & [= <- <-] & Ht & Hg & Hst & _)%init_Ok_inv.
  destruct (add_nodes_from_spec empty_graph (default [] (ev_nodes e)))
    as (Hin1 & Hnd1).
  destruct (add_edges_from_spec
              (add_nodes_from empty_graph (default [] (ev_nodes e)))
              (default [] (ev_edges e))) as (Hin2 & Hnd2).
  assert (NoDup (nodes (self_graph self))) as Hnd.
  { rewrite Hg. apply Hnd2, Hnd1. simpl. apply NoDup_nil_2. }
  split_and!; [|done|].
  - intros n. rewrite Hg, Hin2, Hin1. simpl. rewrite elem_of_nil. tauto.
  - rewrite <- size_dom.
    assert (dom (self_node_states self)
            = list_to_set (nodes (self_graph self))) as ->.
    { apply set_eq. intros n.
      rewrite elem_of_dom, Hst, initial_node_states_lookup,
        elem_of_list_to_set.
      case_bool_decide as Hn.
      + split; [done|intros _; by eexists].
      + split; [by intros [? ?]|done]. }
    by apply size_list_to_set.
Qed.

Lemma topology_is_nodes_and_end_points_witness :
  (3 ∈ [1; 2; 3] ↔ 3 ∈ [1; 2] ∨ 3 ∈ end_points [(2, 3); (1, 3); (3, 2)]) ∧
  NoDup [1; 2; 3] ∧ size (initial_node_states [1; 2; 3]) = 3%nat.
Proof.
  destruct (topology_is_nodes_and_end_points
    (init_event_of [1; 2] [(2, 3); (1, 3); (3, 2)]) []
    {| self_graph := {| nodes := [1; 2; 3]; edges := {[ (2, 3); (1, 3) ]} |};
       self_node_states := initial_node_states [1; 2; 3];
       self_matched_edges := ∅;
       self_frames := [] |}) as (Hin & Hnd & Hsize).
  - vm_compute. reflexivity.
  - split; [exact (Hin 3)|]. split; [exact Hnd|exact Hsize].
Defined.

(** * Further properties of [update_frame] *)

Section drawing.
Implicit Types (st : loop_state) (e : event) (frame : list event)
  (self : visualizer) (g : graph) (n : Z).

Lemma update_frame_Some self i frame :
  self_frames self !! i = Some frame →
  update_frame self i =
    (store self (apply_events self frame),
     draw (self_graph self) i (length (self_frames self))
       (apply_events self frame)).
Proof. intros Hf. unfold update_frame. by rewrite Hf. Qed.

Lemma forallb_false_elem {A} (p : A → bool) (l : list A) :
  forallb p l = false → ∃ x, x ∈ l ∧ p x = false.
Proof.
  induction l as [|x r IH]; simpl; [done|].
  destruct (p x) eqn:Hp; simpl.
  - intros (y & Hy & Hpy)%IH. exists y. split; [by right|done].
  - intros _. exists x. split; [by left|done].
Qed.

(** [draw] raises, and then a [KeyError], exactly when one of its lookups
    misses. *)
Lemma draw_raises g i total st :
  (draw g i total st = Raised KeyError
   ↔ (∃ p, p ∈ matched_edges st ∧ edge_has_position g p = false) ∨
     (∃ n, n ∈ nodes g ∧ node_color (node_states st) n = None) ∨
     (∃ m, m ∈ active_messages st ∧ has_position g m = false)) ∧
  (draw g i total st = Raised KeyError ∨
   ∃ colors,
     mapM (node_color (node_states st)) (nodes g) = Some colors ∧
     draw g i total st =
       Drawn {| scene_title :=
                  {| title_window := S i; title_windows := total;
                     title_msgs := message_count st;
                     title_updates := state_changes_count st;
                     title_matches := match_count st |};
                scene_edges := edges g;
                scene_matched := elements (matched_edges st);
                scene_colors := colors;
                scene_arrows := active_messages st |}).
Proof.
  unfold draw.
  destruct (forallb (edge_has_position g) _) eqn:He.
  - destruct (mapM _ _) as [colors|] eqn:Hm.
    + destruct (forallb (has_position g) _) eqn:Hp.
      * split; [|by eauto]. split; [done|].
        intros [(p & Hin & Hpos)|[(n & Hn & Hc)|(m & Hin & Hpos)]].
        -- rewrite forallb_forall in He.
           rewrite (He p) in Hpos; [done|].
           by apply list_elem_of_In, elem_of_elements.
        -- assert (mapM (node_color (node_states st)) (nodes g) = None)
             as Hnone.
           { apply mapM_None_2, Exists_exists. eauto. }
           by rewrite Hnone in Hm.
        -- rewrite forallb_forall in Hp.
           rewrite (Hp m) in Hpos; [done|by apply list_elem_of_In].
      * split; [|by left]. split; [|done]. intros _. right. right.
        by apply forallb_false_elem.
    + split; [|by left]. split; [|done]. intros _. right. left.
      apply mapM_None_1, Exists_exists in Hm. done.
  - split; [|by left]. split; [|done]. intros _. left.
    apply forallb_false_elem in He as (p & Hin & Hpos).
    exists p. split; [by apply elem_of_elements|done].
Qed.

Lemma apply_event_states_known g st e :
  states_known g (node_states st) →
  (is_state_change e = true → ∃ s, ev_state e = Some s ∧ known_state s) →
  states_known g (node_states (apply_event st e)).
Proof.
  intros Hk Hs.
  destruct (event_cases e)
    as [(n & s & Ht & Hn & Hst)|[(a & b & Ht & Ha & Hb)|
        [(n & p & Ht & Hn & Hp)|[Hi|(H1 & H2 & H3)]]]].
  - rewrite (apply_event_state_change _ _ n s) by done. simpl.
    destruct (kind_of_state_change e n s) as (Hsc & _); [done..|].
    destruct (Hs Hsc) as (s' & Hs' & Hks). rewrite Hst in Hs'.
    injection Hs' as <-.
    intros m Hm. destruct (decide (m = n)) as [->|Hne].
    + exists s. by rewrite lookup_insert_eq.
    + rewrite lookup_insert_ne by done. by apply Hk.
  - by rewrite (apply_event_message_sent _ _ a b).
  - rewrite (apply_event_matched _ _ n p) by done. simpl.
    intros m Hm. destruct (decide (m = n)) as [->|Hne].
    + exists "MATCHED". rewrite lookup_insert_eq. split; [done|].
      unfold known_state. tauto.
    + rewrite lookup_insert_ne by done. by apply Hk.
  - by rewrite apply_event_incomplete.
  - by rewrite apply_event_other.
Qed.

Lemma apply_events_drawable g st frame :
  states_known g (node_states st) →
  drawable_frame g frame →
  states_known g (node_states (foldl apply_event st frame)).
Proof.
  revert st. induction frame as [|e r IH]; intros st Hk Hd; simpl; [done|].
  apply IH.
  - apply apply_event_states_known; [done|].
    apply (Hd e). by left.
  - intros e' He'. apply Hd. by right.
Qed.

Lemma states_known_color g (states : gmap Z string) n :
  states_known g states → n ∈ nodes g → node_color states n ≠ None.
Proof.
  intros Hk Hn. destruct (Hk n Hn) as (s & Hs & Hks).
  unfold node_color. rewrite Hs. simpl. intros Hc.
  by apply STATE_COLORS_known in Hc.
Qed.

Lemma edge_has_position_false g (p : Z * Z) :
  edge_has_position g p = false ↔ p.1 ∉ nodes g ∨ p.2 ∉ nodes g.
Proof.
  unfold edge_has_position.
  rewrite andb_false_iff, !bool_decide_eq_false. tauto.
Qed.

(** A frame of a drawable log is drawn, and leaves known states and matched
    edges between nodes of the graph. *)
Lemma update_frame_drawable self i frame :
  self_frames self !! i = Some frame →
  states_known (self_graph self) (self_node_states self) →
  edges_placed (self_graph self) (self_matched_edges self) →
  drawable_frame (self_graph self) frame →
  states_known (self_graph self) (self_node_states (update_frame self i).1) ∧
  edges_placed (self_graph self) (self_matched_edges (update_frame self i).1) ∧
  ∃ sc, (update_frame self i).2 = Drawn sc.
Proof.
  intros Hf Hk He Hd. rewrite (update_frame_Some _ _ _ Hf). simpl.
  assert (states_known (self_graph self)
            (node_states (apply_events self frame))) as Hk'.
  { by apply apply_events_drawable. }
  assert (edges_placed (self_graph self)
            (matched_edges (apply_events self frame))) as He'.
  { intros p. unfold apply_events. rewrite apply_events_matched_pairs.
    simpl. intros [Hp|Hp]%elem_of_union; [by apply He|].
    unfold matched_pairs in Hp.
    apply elem_of_list_to_set, list_elem_of_omap in Hp as (e & Hin & Hp).
    by apply (Hd e Hin). }
  split_and!; [done..|].
  destruct (draw_raises (self_graph self) i (length (self_frames self))
              (apply_events self frame))
    as [Hr [Hraise|(colors & _ & ->)]]; [|by eauto].
  exfalso.
  apply Hr in Hraise as [(p & Hp & Hpos)|[(n & Hn & Hc)|(m & Hm & Hpos)]].
  - apply edge_has_position_false in Hpos. destruct (He' p Hp). tauto.
  - by eapply states_known_color.
  - unfold apply_events in Hm. rewrite apply_events_messages in Hm.
    simpl in Hm. apply list_elem_of_omap in Hm as (e & Hin & Hme).
    destruct (Hd e Hin) as (_ & Hends & _).
    destruct (Hends m Hme) as [H1 H2].
    unfold has_position in Hpos.
    by rewrite !bool_decide_eq_true_2 in Hpos.
Qed.
End drawing.

Section more_update_frame.
Implicit Types (st : loop_state) (e : event) (frame : list event)
  (self : visualizer) (g : graph) (n : Z).

Lemma group_events_by_time_elem (events f : list event) (x : event) :
  f ∈ group_events_by_time events → x ∈ f → x ∈ events.
Proof.
  intros Hf Hx. apply sort_by_timestamp_elem.
  rewrite <- (group_events_by_time_with_concat _ TIME_WINDOW_NS_nonneg).
  apply list_elem_of_In, in_concat. exists f.
  by rewrite <- !list_elem_of_In.
Qed.

Lemma update_frame_ordered_pairs self i :
  (∀ p, p ∈ self_matched_edges self → p.1 < p.2) →
  ∀ p, p ∈ self_matched_edges (update_frame self i).1 → p.1 < p.2.
Proof.
  intros Hp p. unfold update_frame.
  destruct (self_frames self !! i) as [frame|]; [|apply Hp]. simpl.
  unfold apply_events. rewrite apply_events_matched_pairs. simpl.
  intros [?|?]%elem_of_union; [by apply Hp|by eapply matched_pairs_ordered].
Qed.

Lemma replay_states_known self idxs :
  (∀ frame, frame ∈ self_frames self →
     drawable_frame (self_graph self) frame) →
  states_known (self_graph self) (self_node_states self) →
  edges_placed (self_graph self) (self_matched_edges self) →
  states_known (self_graph self) (self_node_states (replay self idxs)) ∧
  edges_placed (self_graph self) (self_matched_edges (replay self idxs)).
Proof.
  revert self. induction idxs as [|i r IH]; intros self Hd Hk He; [done|].
  unfold replay. simpl. fold (replay (update_frame self i).1 r).
  destruct (update_frame_frames self i) as [Hfr Hgr].
  rewrite <- Hgr.
  destruct (self_frames self !! i) as [frame|] eqn:Hf.
  - destruct (update_frame_drawable self i frame) as (Hk' & He' & _);
      [done..|by apply Hd; eapply list_elem_of_lookup_2|].
    apply IH; rewrite ?Hfr, ?Hgr; done.
  - apply IH; rewrite ?Hfr, ?Hgr; [done|..];
      unfold update_frame; by rewrite Hf.
Qed.

Lemma initial_states_known g :
  states_known g (initial_node_states (nodes g)).
Proof.
  intros n Hn. exists "SINGLE".
  rewrite initial_node_states_lookup, bool_decide_eq_true_2 by done.
  split; [done|]. unfold known_state. tauto.
Qed.

(** The three kinds of complete events exclude each other. *)
Lemma count_kinds_le frame :
  (count is_state_change frame + count is_message_sent frame
   + count is_matched frame ≤ length frame)%nat.
Proof.
  induction frame as [|e r IH]; [done|].
  rewrite !(count_cons _ e r). unfold count at 1 3 5. cbn [List.filter].
  destruct (event_cases e)
    as [(n & s & Ht & Hn & Hs)|[(a & b & Ht & Ha & Hb)|
        [(n & p & Ht & Hn & Hp)|[Hi|(H1 & H2 & H3)]]]].
  - destruct (kind_of_state_change e n s) as (-> & -> & ->); [done..|].
    simpl. lia.
  - destruct (kind_of_message_sent e a b) as (-> & -> & ->); [done..|].
    simpl. lia.
  - destruct (kind_of_matched e n p) as (-> & -> & ->); [done..|].
    simpl. lia.
  - destruct (kind_of_incomplete e) as (-> & -> & ->); [done|]. simpl. lia.
  - destruct (kind_of_other e) as (-> & -> & ->); [done..|]. simpl. lia.
Qed.

Lemma has_position_false g (m : Z * Z * option string) :
  has_position g m = false ↔ m.1.1 ∉ nodes g ∨ m.1.2 ∉ nodes g.
Proof.
  unfold has_position. rewrite andb_false_iff, !bool_decide_eq_false. tauto.
Qed.
End more_update_frame.

(** X10. A frame changes the state only of the nodes it names as [node] in
    a complete state change or match: every other key, the partner of a
    match among them, keeps its state. *)
Theorem frame_writes_only_named_nodes
    (self : visualizer) (i : nat) (frame : list event) (n : Z) :
  self_frames self !! i = Some frame →
  n ∉ written_nodes frame →
  self_node_states ((update_frame self i).1) !! n = self_node_states self !! n.
Proof.
  intros Hf Hn. rewrite (update_frame_Some _ _ _ Hf). simpl.
  unfold apply_events. by rewrite apply_events_lookup_ne.
Qed.

Lemma frame_writes_only_named_nodes_witness :
  let self :=
    {| self_graph := {| nodes := [1; 2]; edges := ∅ |};
       self_node_states := initial_node_states [1; 2];
       self_matched_edges := ∅;
       self_frames := [[matched_event 7 1 2]] |} in
  self_node_states ((update_frame self 0).1) !! 2 = Some "SINGLE".
Proof.
  intros self.
  rewrite (frame_writes_only_named_nodes self 0 [matched_event 7 1 2] 2).
  - reflexivity.
  - reflexivity.
  - apply (bool_decide_unpack _). vm_compute. exact I.
Defined.

(** X11. The matched edges after a frame are those before it and the
    ordered pairs of the frame's complete matches of two different nodes,
    whether or not the pair is an edge of the graph. *)
Theorem matched_edges_after_a_frame
    (self : visualizer) (i : nat) (frame : list event) :
  self_frames self !! i = Some frame →
  self_matched_edges (update_frame self i).1
  = self_matched_edges self ∪ matched_pairs frame.
Proof.
  intros Hf. rewrite (update_frame_Some _ _ _ Hf). simpl.
  unfold apply_events. by rewrite apply_events_matched_pairs.
Qed.

Lemma matched_edges_after_a_frame_witness :
  let self :=
    {| self_graph := {| nodes := [1; 2]; edges := ∅ |};
       self_node_states := initial_node_states [1; 2];
       self_matched_edges := ∅;
       self_frames := [[matched_event 7 9 4]] |} in
  self_matched_edges (update_frame self 0).1
  = ∅ ∪ matched_pairs [matched_event 7 9 4].
Proof.
  intros self.
  apply (matched_edges_after_a_frame self 0 [matched_event 7 9 4]).
  reflexivity.
Defined.

(** X12. From the constructor on, whatever frames are applied, every
    matched edge is a pair of two different nodes with the smaller first:
    the set never holds a self-loop or both orders of one pair. *)
Theorem matched_edges_are_ordered_pairs
    (raw_events : list event) (self : visualizer) (idxs : list nat)
    (p : Z * Z) :
  __init__ raw_events = Ok self →
  p ∈ self_matched_edges (replay self idxs) →
  p.1 < p.2.
Proof.
  intros (e & rest & _ & _ & _ & _ & Hm & _)%init_Ok_inv.
  assert (∀ q, q ∈ self_matched_edges self → q.1 < q.2) as Hinv.
  { intros q. rewrite Hm. by intros ?%not_elem_of_empty. }
  clear Hm. revert self Hinv p.
  induction idxs as [|i r IH]; intros self Hinv p; [apply Hinv|].
  apply (IH (update_frame self i).1).
  by apply update_frame_ordered_pairs.
Qed.

Lemma matched_edges_are_ordered_pairs_witness : (4, 9).1 < (4, 9).2.
Proof.
  apply (matched_edges_are_ordered_pairs
    [init_event_of [4; 9] []; matched_event 7 9 4]
    {| self_graph := {| nodes := [4; 9]; edges := ∅ |};
       self_node_states := initial_node_states [4; 9];
       self_matched_edges := ∅;
       self_frames := [[matched_event 7 9 4]] |} [0%nat]).
  - reflexivity.
  - vm_compute. reflexivity.
Defined.

(** X13. The messages of a frame are those of its complete MSG_SENT events,
    in frame order, one per event; none is carried over from the object or
    from earlier frames.  They are the arrows of the scene drawn, and their
    number is the message count. *)
Theorem messages_are_those_of_the_frame
    (self : visualizer) (i : nat) (frame : list event) :
  self_frames self !! i = Some frame →
  active_messages (apply_events self frame) = omap message_of frame ∧
  message_count (apply_events self frame)
  = length (omap message_of frame) ∧
  ∀ sc, (update_frame self i).2 = Drawn sc →
        scene_arrows sc = omap message_of frame.
Proof.
  intros Hf.
  assert (active_messages (apply_events self frame) = omap message_of frame)
    as Hm.
  { unfold apply_events. by rewrite apply_events_messages. }
  split_and!; [done| |].
  - unfold apply_events.
    destruct (apply_events_counters (enter_frame self) frame) as (_ & -> & _).
    simpl. clear Hf Hm. unfold count.
    induction frame as [|e r IH]; [done|]. simpl.
    unfold message_of at 1.
    destruct (is_message_sent e) eqn:He; simpl; [|done].
    unfold is_message_sent in He.
    apply andb_true_iff in He as [_ He]. apply bool_decide_eq_true in He.
    destruct (ev_msg e) as [m|]; simpl in *.
    + destruct He as [[? ->] [? ->]]. simpl. by rewrite IH.
    + by destruct He as [[? ?] _].
  - intros sc. rewrite (update_frame_Some _ _ _ Hf). simpl.
    destruct (draw_raises (self_graph self) i (length (self_frames self))
                (apply_events self frame))
      as [_ [->|(colors & _ & ->)]]; [done|].
    intros [= <-]. simpl. done.
Qed.

Lemma messages_are_those_of_the_frame_witness :
  let self :=
    {| self_graph := {| nodes := [1; 2]; edges := ∅ |};
       self_node_states := initial_node_states [1; 2];
       self_matched_edges := ∅;
       self_frames := [[bare "MSG_SENT" (Some 3); matched_event 7 1 2]] |} in
  message_count
    (apply_events self [bare "MSG_SENT" (Some 3); matched_event 7 1 2])
  = 0%nat.
Proof.
  intros self.
  apply (messages_are_those_of_the_frame self 0
           [bare "MSG_SENT" (Some 3); matched_event 7 1 2]).
  reflexivity.
Defined.

(** X14. [update_frame] on a frame raises exactly when a lookup of the
    drawing part misses: a matched edge, after the frame, with an end point
    that is not a topology node (line 126), a topology node whose state
    after the frame has no colour (line 128), or a complete message of the
    frame whose sender or target is not a topology node (lines 134-135).
    The error is a [KeyError]; the states and matched edges the frame wrote
    are kept. *)
Theorem update_frame_raises_iff
    (self : visualizer) (i : nat) (frame : list event) :
  self_frames self !! i = Some frame →
  ((update_frame self i).2 = Raised KeyError
   ↔ (∃ p, p ∈ self_matched_edges ((update_frame self i).1) ∧
           (p.1 ∉ nodes (self_graph self) ∨
            p.2 ∉ nodes (self_graph self))) ∨
     (∃ n, n ∈ nodes (self_graph self) ∧
           node_color (self_node_states ((update_frame self i).1)) n = None) ∨
     (∃ e m, e ∈ frame ∧ message_of e = Some m ∧
             (m.1.1 ∉ nodes (self_graph self) ∨
              m.1.2 ∉ nodes (self_graph self)))) ∧
  (∀ ex, (update_frame self i).2 = Raised ex → ex = KeyError) ∧
  (update_frame self i).1 = store self (apply_events self frame).
Proof.
  intros Hf. rewrite (update_frame_Some _ _ _ Hf). simpl.
  destruct (draw_raises (self_graph self) i (length (self_frames self))
              (apply_events self frame)) as [Hr Hcases].
  split_and!; [|by destruct Hcases as [->|(? & _ & ->)]; intros ? [= <-]|done].
  rewrite Hr. unfold apply_events. rewrite apply_events_messages. simpl.
  split.
  - intros [(p & Hp & Hpos)|[Hn|(m & Hm & Hpos)]].
    + left. exists p. split; [done|by apply edge_has_position_false].
    + right. by left.
    + right. right.
      apply list_elem_of_omap in Hm as (e & He & Hm).
      apply has_position_false in Hpos. eauto.
  - intros [(p & Hp & Hpos)|[Hn|(e & m & He & Hm & Hpos)]].
    + left. exists p. split; [done|by apply edge_has_position_false].
    + right. by left.
    + right. right. exists m. split.
      * apply list_elem_of_omap. eauto.
      * by apply has_position_false.
Qed.

Lemma update_frame_raises_iff_witness :
  let self :=
    {| self_graph := {| nodes := [1; 2]; edges := ∅ |};
       self_node_states := initial_node_states [1; 2];
       self_matched_edges := ∅;
       self_frames := [[matched_event 5 1 99]] |} in
  (update_frame self 0).2 = Raised KeyError.
Proof.
  intros self.
  apply (update_frame_raises_iff self 0 [matched_event 5 1 99]).
  - reflexivity.
  - left. exists (1, 99). split.
    + vm_compute. reflexivity.
    + right. vm_compute. set_solver.
Defined.

(** X15. A log passes every lookup of [update_frame], at every frame, in
    whatever order and however often the frames are applied, when its state
    changes carry one of the four state names and its messages and its
    matches of two different nodes go between topology nodes. *)
Theorem drawable_log_is_always_drawn
    (e0 : event) (rest : list event) (self : visualizer)
    (idxs : list nat) (i : nat) :
  __init__ (e0 :: rest) = Ok self →
  drawable_frame (self_graph self) rest →
  (i < length (self_frames self))%nat →
  ∃ sc, (update_frame (replay self idxs) i).2 = Drawn sc.
Proof.
  intros (e & rest' & [= <- <-] & _ & _ & Hst & Hme & Hfr)%init_Ok_inv Hd Hi.
  assert (∀ frame, frame ∈ self_frames self →
            drawable_frame (self_graph self) frame) as Hdf.
  { intros frame Hin x Hx. apply Hd.
    rewrite Hfr in Hin. by eapply group_events_by_time_elem. }
  destruct (replay_states_known self idxs Hdf) as [Hk He].
  { rewrite Hst. apply initial_states_known. }
  { intros p. rewrite Hme. by intros ?%not_elem_of_empty. }
  destruct (replay_frames self idxs) as [Hrf Hrg].
  destruct (lookup_lt_is_Some_2 (self_frames self) i Hi) as [frame Hf].
  apply (update_frame_drawable (replay self idxs) i frame).
  - by rewrite Hrf.
  - by rewrite Hrg.
  - by rewrite Hrg.
  - rewrite Hrg. apply Hdf. by eapply list_elem_of_lookup_2.
Qed.

Lemma drawable_log_is_always_drawn_witness :
  let self :=
    {| self_graph := {| nodes := [1; 2]; edges := {[ (1, 2) ]} |};
       self_node_states := initial_node_states [1; 2];
       self_matched_edges := ∅;
       self_frames := [[state_change_event 5 1 "PROPOSER";
                        matched_event 6 2 1]] |} in
  ∃ sc, (update_frame (replay self [0%nat; 0%nat]) 0).2 = Drawn sc.
Proof.
  intros self.
  apply (drawable_log_is_always_drawn (init_event_of [1; 2] [(1, 2)])
           [state_change_event 5 1 "PROPOSER"; matched_event 6 2 1]
           self [0%nat; 0%nat] 0).
  - vm_compute. reflexivity.
  - intros e He.
    apply elem_of_cons in He as [->|He];
      [|apply list_elem_of_singleton in He as ->].
    + split; [|split].
      * intros _. exists "PROPOSER". split; [reflexivity|].
        unfold known_state. tauto.
      * intros m Hm. discriminate Hm.
      * intros p Hp. discriminate Hp.
    + split; [|split].
      * intros Hsc. discriminate Hsc.
      * intros m Hm. discriminate Hm.
      * intros p Hp. vm_compute in Hp. injection Hp as <-.
        split; simpl; set_solver.
  - simpl. lia.
Defined.

(** X16. An index past the last frame does nothing: [update_frame] returns
    without drawing exactly when the index is not below the number of
    frames, and then the object is unchanged.  No call, and no sequence of
    calls, changes the graph or the list of frames. *)
Theorem index_past_the_frames (self : visualizer) (i : nat) :
  ((update_frame self i).2 = Returned
   ↔ (length (self_frames self) ≤ i)%nat) ∧
  ((length (self_frames self) ≤ i)%nat → (update_frame self i).1 = self) ∧
  (∀ idxs,
     self_frames (replay self idxs) = self_frames self ∧
     self_graph (replay self idxs) = self_graph self).
Proof.
  split_and!.
  - destruct (self_frames self !! i) as [frame|] eqn:Hf.
    + rewrite (update_frame_Some _ _ _ Hf). simpl.
      apply lookup_lt_Some in Hf. split; [|lia].
      by destruct (draw_raises (self_graph self) i
                     (length (self_frames self)) (apply_events self frame))
        as [_ [->|(? & _ & ->)]].
    + unfold update_frame. rewrite Hf. simpl.
      apply lookup_ge_None in Hf. done.
  - intros Hi. unfold update_frame.
    by rewrite (proj2 (lookup_ge_None _ _) Hi).
  - apply replay_frames.
Qed.

Lemma index_past_the_frames_witness :
  let self :=
    {| self_graph := {| nodes := [1]; edges := ∅ |};
       self_node_states := initial_node_states [1];
       self_matched_edges := ∅;
       self_frames := [[matched_event 7 1 1]] |} in
  (update_frame self 1).1 = self.
Proof.
  intros self. apply (index_past_the_frames self 1). simpl. lia.
Defined.

(** X17. The title of a drawn frame: the window number is the index plus
    one and lies between 1 and the number of frames, and the three counts
    together are at most the number of events of the frame. *)
Theorem title_of_a_drawn_frame
    (self : visualizer) (i : nat) (frame : list event) (sc : scene) :
  self_frames self !! i = Some frame →
  (update_frame self i).2 = Drawn sc →
  title_window (scene_title sc) = S i ∧
  title_windows (scene_title sc) = length (self_frames self) ∧
  (1 ≤ title_window (scene_title sc) ≤ title_windows (scene_title sc))%nat ∧
  (title_msgs (scene_title sc) + title_updates (scene_title sc)
   + title_matches (scene_title sc) ≤ length frame)%nat.
Proof.
  intros Hf. rewrite (update_frame_Some _ _ _ Hf). simpl.
  destruct (draw_raises (self_graph self) i (length (self_frames self))
              (apply_events self frame))
    as [_ [->|(colors & _ & ->)]]; [done|].
  intros [= <-]. simpl. apply lookup_lt_Some in Hf.
  split_and!; [done|done|lia|lia|].
  unfold apply_events.
  destruct (apply_events_counters (enter_frame self) frame) as (-> & -> & ->).
  simpl. pose proof (count_kinds_le frame). lia.
Qed.

Lemma title_of_a_drawn_frame_witness :
  let self :=
    {| self_graph := {| nodes := [1]; edges := ∅ |};
       self_node_states := initial_node_states [1];
       self_matched_edges := ∅;
       self_frames := [[matched_event 7 1 1]] |} in
  let sc :=
    {| scene_title :=
         {| title_window := 1; title_windows := 1; title_msgs := 0;
            title_updates := 0; title_matches := 1 |};
       scene_edges := ∅; scene_matched := [];
       scene_colors := ["#66BB6A"]; scene_arrows := [] |} in
  title_window (scene_title sc) = 1%nat ∧
  (title_msgs (scene_title sc) + title_updates (scene_title sc)
   + title_matches (scene_title sc) ≤ 1)%nat.
Proof.
  intros self sc.
  destruct (title_of_a_drawn_frame self 0 [matched_event 7 1 1] sc)
    as (Hw & _ & _ & Hc).
  - reflexivity.
  - vm_compute. reflexivity.
  - split; [exact Hw|exact Hc].
Defined.

(** X18. Only the complete events of the three kinds count: an event of
    another type, a further INIT event or an event without a type among
    them, is passed over like an incomplete one, and [update_frame] gives
    what it gives on the frame without all these events. *)
Theorem only_complete_events_of_three_kinds_count
    (self : visualizer) (i : nat) (frame : list event) :
  self_frames self !! i = Some frame →
  update_frame self i =
    (store self (apply_events self (List.filter relevant frame)),
     draw (self_graph self) i (length (self_frames self))
       (apply_events self (List.filter relevant frame))).
Proof.
  intros Hf. rewrite (update_frame_Some _ _ _ Hf).
  unfold apply_events. by rewrite <- apply_events_relevant.
Qed.

Lemma only_complete_events_of_three_kinds_count_witness :
  let self :=
    {| self_graph := {| nodes := [1]; edges := ∅ |};
       self_node_states := initial_node_states [1];
       self_matched_edges := ∅;
       self_frames := [[init_event_of [5] []; matched_event 7 1 1]] |} in
  update_frame self 0 =
    (store self (apply_events self [matched_event 7 1 1]),
     draw (self_graph self) 0 1 (apply_events self [matched_event 7 1 1])).
Proof.
  intros self.
  apply (only_complete_events_of_three_kinds_count self 0
           [init_event_of [5] []; matched_event 7 1 1]).
  reflexivity.
Defined.

(** X19. The last write wins: when a complete state change or match names
    a node and no later event of the frame writes that node, the node has
    after the frame the state of that state change, respectively MATCHED. *)
Theorem last_write_wins
    (self : visualizer) (i : nat) (before after : list event)
    (e : event) (n : Z) :
  self_frames self !! i = Some (before ++ e :: after) →
  ev_node e = Some n →
  n ∉ written_nodes after →
  (∀ s, ev_type e = Some "STATE_CHANGE" → ev_state e = Some s →
        self_node_states ((update_frame self i).1) !! n = Some s) ∧
  (∀ p, ev_type e = Some "MATCHED" → ev_partner e = Some p →
        self_node_states ((update_frame self i).1) !! n = Some "MATCHED").
Proof.
  intros Hf Hn Hafter. rewrite (update_frame_Some _ _ _ Hf). simpl.
  unfold apply_events. rewrite foldl_app. simpl.
  rewrite apply_events_lookup_ne by done. split.
  - intros s Ht Hs. rewrite (apply_event_state_change _ _ n s) by done.
    simpl. apply lookup_insert_eq.
  - intros p Ht Hp. rewrite (apply_event_matched _ _ n p) by done.
    simpl. apply lookup_insert_eq.
Qed.

Lemma last_write_wins_witness :
  let self :=
    {| self_graph := {| nodes := [1; 2]; edges := ∅ |};
       self_node_states := initial_node_states [1; 2];
       self_matched_edges := ∅;
       self_frames := [[matched_event 7 1 2;
                        state_change_event 8 1 "LISTENER";
                        state_change_event 9 2 "PROPOSER"]] |} in
  self_node_states ((update_frame self 0).1) !! 1 = Some "LISTENER".
Proof.
  intros self.
  apply (last_write_wins self 0 [matched_event 7 1 2]
           [state_change_event 9 2 "PROPOSER"]
           (state_change_event 8 1 "LISTENER") 1).
  - reflexivity.
  - reflexivity.
  - apply (bool_decide_unpack _). vm_compute. exact I.
  - reflexivity.
  - reflexivity.
Defined.
